(** * Write allowlist of the Google Docs MCP server ([src/writeAccess.ts])

    A shallow embedding of the allowlist gate: the configuration parser
    ([loadAllowlistState], [parseAllowlistInput], [extractIds], [splitList]),
    the memoised ancestor resolver ([getFileNode]), the one-time root
    normalisation ([ensureRootResolved]), the breadth-first ancestor search
    ([isIdWithinAllowlist]) and the three assertion entry points.

    Conventions of the embedding.
    - A JavaScript string is a [string] of 8-bit code units.
    - [Set<string>] is a [gset string], [Map<string, FileNode>] a
      [gmap string FileNode].
    - The module-level variables [allowlistState], [parentCache] and
      [rootResolved] are the fields of [State], threaded explicitly; a thrown
      [UserError] is the [Throw] outcome and leaves the mutations made so far
      in place, as an exception does.
    - The Drive client is a finite table of files together with the error the
      client raises for every other ID.
    - The only loop that is not bounded by its input, the [while] of
      [isIdWithinAllowlist], takes fuel; [None] means the fuel ran out.
    - [JSON.parse] and [fs.readFileSync] are parameters of the parser; what
      the code does with a parsed value, [String] included, is modelled. *)

From Stdlib Require Import Ascii ZArith.
From stdpp Require Import gmap strings list fin_maps fin_sets relations.

#[local] Set Warnings "-clear-no-such-hyp".

Local Open Scope stdpp_scope.

(** ** JavaScript strings *)

Definition LF : ascii := "010"%char.

(** Truthiness of a string: only the empty string is falsy. *)
Definition truthy (s : string) : bool :=
  match s with EmptyString => false | String _ _ => true end.

(** [a || b] on a possibly undefined string [a]. *)
Definition or_else (a : option string) (b : string) : string :=
  match a with
  | Some s => if truthy s then s else b
  | None => b
  end.

(** White space removed by [String.prototype.trim], among the code units
    below 256: TAB, LF, VT, FF, CR, SP and NBSP. *)
Definition is_white (c : ascii) : bool :=
  match c with
  | "009" | "010" | "011" | "012" | "013" | " " | "160" => true
  | _ => false
  end%char.

Fixpoint trimStart (s : string) : string :=
  match s with
  | EmptyString => EmptyString
  | String c r => if is_white c then trimStart r else s
  end.

Fixpoint trimEnd (s : string) : string :=
  match s with
  | EmptyString => EmptyString
  | String c r =>
      match trimEnd r with
      | EmptyString => if is_white c then EmptyString else String c EmptyString
      | r' => String c r'
      end
  end.

Definition trim (s : string) : string := trimEnd (trimStart s).

Definition startsWith (s : string) (c : ascii) : bool :=
  match s with
  | String c' _ => bool_decide (c' = c)
  | EmptyString => false
  end.

Fixpoint join (sep : string) (l : list string) : string :=
  match l with
  | [] => ""
  | [x] => x
  | x :: rest => x +:+ sep +:+ join sep rest
  end.

(** The separators of the regular expression [/[\n,]/]. *)
Definition is_separator (c : ascii) : bool :=
  bool_decide (c = LF) || bool_decide (c = ","%char).

(** [rawValue.split(/[\n,]/)]: [piece] is the piece being read. *)
Fixpoint split_from (piece : string) (s : string) : list string :=
  match s with
  | EmptyString => [piece]
  | String c r =>
      if is_separator c then piece :: split_from "" r
      else split_from (piece +:+ String c "") r
  end.

Definition split (s : string) : list string := split_from "" s.

Definition splitList (rawValue : string) : list string :=
  filter (λ value, truthy value = true) (trim <$> split rawValue).

(** ** Parsed JSON and thrown errors *)

#[local] Unset Elimination Schemes.
Inductive Json :=
  | JNull
  | JBool (b : bool)
  | JNumber (shown : string)
  | JString (s : string)
  | JArray (items : list Json)
  | JObject (fields : list (string * Json)).
#[local] Set Elimination Schemes.

(** [parsed[field]]: the last binding of a repeated key wins. *)
Fixpoint get_field (fields : list (string * Json)) (field : string) : option Json :=
  match fields with
  | [] => None
  | (k, v) :: rest =>
      match get_field rest field with
      | Some v' => Some v'
      | None => if bool_decide (k = field) then Some v else None
      end
  end.

(** A thrown JavaScript error: [error.message] and [String(error)]. *)
Record JsError := { js_message : string; js_toString : string }.

(** [error.message || String(error)] *)
Definition describe (e : JsError) : string :=
  if truthy (js_message e) then js_message e else js_toString e.

(** The [TypeError] of [OrdinaryToPrimitive] (the message is V8's). *)
Definition TypeError_primitive : JsError :=
  {| js_message := "Cannot convert object to primitive value";
     js_toString := "TypeError: Cannot convert object to primitive value" |}.

(** [items.map(f)] for an [f] that may throw: the first throw ends the map. *)
Definition map_throwing {A B : Type} (f : A → B + JsError) : list A → list B + JsError :=
  fix go (items : list A) : list B + JsError :=
    match items with
    | [] => inl []
    | item :: rest =>
        match f item with
        | inl b =>
            match go rest with
            | inl bs => inl (b :: bs)
            | inr e => inr e
            end
        | inr e => inr e
        end
    end.

(** [String(value)] on a value that [JSON.parse] returned; a number carries
    its decimal rendering.
    - An array is joined with commas, [null] items rendered as the empty
      string and the others by [String].
    - An object is converted by [OrdinaryToPrimitive]: without an own
      [toString] property, [Object.prototype.toString] answers
      ["[object Object]"]; an own [toString] property hides it, and since no
      parsed value is callable and [Object.prototype.valueOf] returns the
      object itself, the conversion throws a [TypeError]. *)
Fixpoint js_String (j : Json) : string + JsError :=
  match j with
  | JNull => inl "null"
  | JBool true => inl "true"
  | JBool false => inl "false"
  | JNumber shown => inl shown
  | JString s => inl s
  | JArray items =>
      match
        map_throwing
          (λ item, match item with JNull => inl "" | _ => js_String item end) items
      with
      | inl shown => inl (join "," shown)
      | inr e => inr e
      end
  | JObject fields =>
      match get_field fields "toString" with
      | Some _ => inr TypeError_primitive
      | None => inl "[object Object]"
      end
  end.

(** The [for] loop of [extractIds] over the fields still to read; [ids] is
    the array filled so far. *)
Fixpoint extractIds_from (parsed : list (string * Json)) (fields : list string)
    (ids : list string) : list string + JsError :=
  match fields with
  | [] => inl ids
  | field :: rest =>
      match get_field parsed field with
      | Some (JArray value) =>
          match map_throwing js_String value with
          | inl strings => extractIds_from parsed rest (ids ++ strings)
          | inr e => inr e
          end
      | Some (JString value) => extractIds_from parsed rest (ids ++ [value])
      | _ => extractIds_from parsed rest ids
      end
  end.

Definition extractIds (parsed : list (string * Json)) : list string + JsError :=
  extractIds_from parsed ["ids"; "files"; "folders"] [].

Module AllowlistState.
Record t := mk {
  enabled : bool;
  ids : gset string;
  sources : list string;
  error : option string;
}.
End AllowlistState.

Definition ENV_ALLOWLIST : string := "GOOGLE_DRIVE_WRITE_ALLOWLIST".

Section ConfigParser.
(** [JSON.parse] and [fs.readFileSync(path, 'utf8')] are library code. *)
Variable JSON_parse : string → Json + JsError.
Variable readFileSync : string → string + JsError.

Definition parseAllowlistInput (rawValue : string) : list string + JsError :=
  let trimmed := trim rawValue in
  if negb (truthy trimmed) then inl []
  else if startsWith trimmed "{" || startsWith trimmed "[" then
    match JSON_parse trimmed with
    | inr e => inr e
    | inl (JArray parsed) => map_throwing js_String parsed
    | inl (JObject parsed) => extractIds parsed
    | inl (JString parsed) => inl [parsed]
    | inl _ =>
        let msg := "Allowlist JSON must be an array or object with ids/files/folders." in
        inr {| js_message := msg; js_toString := "Error: " +:+ msg |}
    end
  else inl (splitList trimmed).

Definition loadAllowlistState (allowlistValue allowlistPath : option string)
  : AllowlistState.t :=
  let '(enabled1, sources1, ids1, errors1) :=
    match allowlistValue with
    | Some value =>
        match parseAllowlistInput value with
        | inl parsed => (true, ["env:" +:+ ENV_ALLOWLIST], parsed, [])
        | inr e => (true, ["env:" +:+ ENV_ALLOWLIST], [], [describe e])
        end
    | None => (false, [], [], [])
    end in
  let '(enabled2, sources2, ids2, errors2) :=
    match allowlistPath with
    | Some path =>
        let failed e := "Failed to read " +:+ path +:+ ": " +:+ describe e in
        match readFileSync path with
        | inl fileContents =>
            match parseAllowlistInput fileContents with
            | inl parsed =>
                (true, sources1 ++ ["file:" +:+ path], ids1 ++ parsed, errors1)
            | inr e =>
                (true, sources1 ++ ["file:" +:+ path], ids1, errors1 ++ [failed e])
            end
        | inr e =>
            (true, sources1 ++ ["file:" +:+ path], ids1, errors1 ++ [failed e])
        end
    | None => (enabled1, sources1, ids1, errors1)
    end in
  let normalizedIds : gset string :=
    list_to_set (filter (λ id, truthy id = true) (trim <$> ids2)) in
  AllowlistState.mk enabled2 normalizedIds sources2
    (match errors2 with [] => None | _ => Some (join " " errors2) end).
End ConfigParser.

(** ** The gate's state and the Drive client *)

Module FileNode.
Record t := mk { id : string; parents : list string }.
End FileNode.

Module Drive.
(** [response.data] of a successful [drive.files.get]. *)
Record File := { id : option string; parents : option (list string) }.

(** [error.code] is compared with [===] against the numbers 404 and 403. *)
Inductive Code := Status (n : Z) | OtherCode.

(** What [getFileNode] reads of a rejected request: [error.code],
    [error.response?.data?.error?.message] and [error.message]. *)
Record Error := {
  code : Code;
  response_message : option string;
  message : option string;
}.

(** The remote store: the files it serves, and the error for any other ID. *)
Record t := { files : gmap string File; failure : string → Error }.

Definition files_get (drive : t) (fileId : string) : File + Error :=
  match files drive !! fileId with
  | Some data => inl data
  | None => inr (failure drive fileId)
  end.
End Drive.

Inductive TargetLabel := file | parent | parents.


(** The [UserError]s the module throws, one constructor per [throw]. *)
Inductive UserError :=
  | ConfigurationError (sources error : string)
  | EmptyAllowlist (sources : string)
  | WriteBlocked (actionDescription : string) (targetLabel : TargetLabel) (targetId : string)
  | FileNotFound (fileId : string)
  | PermissionDenied (fileId : string)
  | VerificationFailed (fileId message : string).


Record State := mkState {
  allowlistState : AllowlistState.t;
  parentCache : gmap string FileNode.t;
  rootResolved : bool;
  (** Ghost history: the IDs sent to [drive.files.get], oldest first. *)
  requests : list string;
  (** Ghost history: the IDs a traversal has marked as seen, oldest first. *)
  visits : list string;
}.

Definition enabled (st : State) : bool := AllowlistState.enabled (allowlistState st).
Definition ids (st : State) : gset string := AllowlistState.ids (allowlistState st).
Definition error (st : State) : option string := AllowlistState.error (allowlistState st).

(** The state of a process that has just loaded its configuration. *)
Definition initial (config : AllowlistState.t) : State :=
  mkState config ∅ false [] [].

Definition cache_set (key : string) (node : FileNode.t) (st : State) : State :=
  mkState (allowlistState st) (<[key := node]> (parentCache st)) (rootResolved st)
    (requests st) (visits st).

Definition ids_add (x : string) (st : State) : State :=
  let a := allowlistState st in
  mkState
    (AllowlistState.mk (AllowlistState.enabled a) ({[x]} ∪ AllowlistState.ids a)
       (AllowlistState.sources a) (AllowlistState.error a))
    (parentCache st) (rootResolved st) (requests st) (visits st).

Definition set_rootResolved (st : State) : State :=
  mkState (allowlistState st) (parentCache st) true (requests st) (visits st).

Definition record_request (fileId : string) (st : State) : State :=
  mkState (allowlistState st) (parentCache st) (rootResolved st)
    (requests st ++ [fileId]) (visits st).

Definition record_visit (currentId : string) (st : State) : State :=
  mkState (allowlistState st) (parentCache st) (rootResolved st)
    (requests st) (visits st ++ [currentId]).

(** How a call ends: it returns, or it throws a [UserError]. *)
Inductive Outcome (A : Type) :=
  | Return (a : A)
  | Throw (e : UserError).
Arguments Return {A} a.
Arguments Throw {A} e.

Definition M (A : Type) : Type := State → State * Outcome A.

Definition formatSources (state : AllowlistState.t) : string :=
  match AllowlistState.sources state with
  | [] => "unknown source"
  | l => join ", " l
  end.

(** The node built from a successful response. *)
Definition node_of_response (fileId : string) (data : Drive.File) : FileNode.t :=
  FileNode.mk (or_else (Drive.id data) fileId) (default [] (Drive.parents data)).

(** The [catch] block of [getFileNode]. *)
Definition lookup_error (fileId : string) (error : Drive.Error) : UserError :=
  let message :=
    or_else (Drive.response_message error)
      (or_else (Drive.message error) "Unknown error") in
  match Drive.code error with
  | Drive.Status 404%Z => FileNotFound fileId
  | Drive.Status 403%Z => PermissionDenied fileId
  | _ => VerificationFailed fileId message
  end.

Definition getFileNode (drive : Drive.t) (fileId : string) : M FileNode.t :=
  λ st,
    match parentCache st !! fileId with
    | Some cached => (st, Return cached)
    | None =>
        let st := record_request fileId st in
        match Drive.files_get drive fileId with
        | inl data =>
            let node := node_of_response fileId data in
            let st := cache_set fileId node st in
            let st :=
              if truthy (FileNode.id node) && negb (bool_decide (FileNode.id node = fileId))
              then cache_set (FileNode.id node) node st
              else st in
            (st, Return node)
        | inr error => (st, Throw (lookup_error fileId error))
        end
    end.

(** [allowlistIds] is the very [Set] held by [allowlistState], so adding to
    it changes the state every later call reads. *)
Definition ensureRootResolved (drive : Drive.t) : M unit :=
  λ st,
    if rootResolved st || negb (bool_decide ("root" ∈ ids st)) then (st, Return ())
    else
      match getFileNode drive "root" st with
      | (st, Throw e) => (st, Throw e)
      | (st, Return rootNode) =>
          let st :=
            if truthy (FileNode.id rootNode)
               && negb (bool_decide (FileNode.id rootNode = "root"))
            then ids_add (FileNode.id rootNode) st
            else st in
          (set_rootResolved st, Return ())
      end.

(** The [while] loop of [isIdWithinAllowlist], one iteration per unit of
    fuel; [queue.shift()] takes the head, [queue.push] appends. *)
Fixpoint isIdWithinAllowlist_loop (drive : Drive.t) (fuel : nat)
    (queue : list string) (seen : gset string) (st : State)
  : option (State * Outcome bool) :=
  match fuel with
  | O => None
  | S fuel =>
      match queue with
      | [] => Some (st, Return false)
      | currentId :: queue =>
          if negb (truthy currentId) || bool_decide (currentId ∈ seen)
          then isIdWithinAllowlist_loop drive fuel queue seen st
          else
            let seen := {[currentId]} ∪ seen in
            let st := record_visit currentId st in
            if bool_decide (currentId ∈ ids st) then Some (st, Return true)
            else
              match getFileNode drive currentId st with
              | (st, Throw e) => Some (st, Throw e)
              | (st, Return node) =>
                  if bool_decide (FileNode.id node ∈ ids st) then Some (st, Return true)
                  else
                    isIdWithinAllowlist_loop drive fuel
                      (queue ++ filter (λ parentId, parentId ∉ seen) (FileNode.parents node))
                      seen st
              end
      end
  end.

Definition isIdWithinAllowlist (drive : Drive.t) (fuel : nat) (fileId : string)
    (st : State) : option (State * Outcome bool) :=
  isIdWithinAllowlist_loop drive fuel [fileId] ∅ st.

(** The [for] loop of [assertWriteAccessInternal]. *)
Fixpoint check_targets (drive : Drive.t) (fuel : nat) (actionDescription : string)
    (targetLabel : TargetLabel) (targetIds : list string) (st : State)
  : option (State * Outcome unit) :=
  match targetIds with
  | [] => Some (st, Return ())
  | targetId :: rest =>
      match isIdWithinAllowlist drive fuel targetId st with
      | None => None
      | Some (st, Throw e) => Some (st, Throw e)
      | Some (st, Return allowed) =>
          if allowed
          then check_targets drive fuel actionDescription targetLabel rest st
          else Some (st, Throw (WriteBlocked actionDescription targetLabel targetId))
      end
  end.

Definition assertWriteAccessInternal (drive : Drive.t) (fuel : nat)
    (targetIds : list string) (actionDescription : string)
    (targetLabel : TargetLabel) (st : State) : option (State * Outcome unit) :=
  if negb (enabled st) then Some (st, Return ())
  else if truthy (default "" (error st)) then
    Some (st, Throw (ConfigurationError (formatSources (allowlistState st))
                       (default "" (error st))))
  else if bool_decide (size (ids st) = 0) then
    Some (st, Throw (EmptyAllowlist (formatSources (allowlistState st))))
  else
    match ensureRootResolved drive st with
    | (st, Throw e) => Some (st, Throw e)
    | (st, Return _) => check_targets drive fuel actionDescription targetLabel targetIds st
    end.

Definition assertWriteAccessForFile (drive : Drive.t) (fuel : nat) (fileId : string)
    (actionDescription : string) : State → option (State * Outcome unit) :=
  assertWriteAccessInternal drive fuel [fileId] actionDescription file.

Definition assertWriteAccessForParent (drive : Drive.t) (fuel : nat)
    (parentId : option string) (actionDescription : string)
  : State → option (State * Outcome unit) :=
  let targetId := default "root" parentId in
  assertWriteAccessInternal drive fuel [targetId] actionDescription parent.

Definition assertWriteAccessForParents (drive : Drive.t) (fuel : nat)
    (parentIds : option (list string)) (actionDescription : string)
  : State → option (State * Outcome unit) :=
  let targets :=
    match parentIds with
    | Some (p :: ps) => p :: ps
    | _ => ["root"]
    end in
  assertWriteAccessInternal drive fuel targets actionDescription parents.

(** The three public assertions, as one call. *)
Inductive Assertion :=
  | ForFile (fileId : string)
  | ForParent (parentId : option string)
  | ForParents (parentIds : option (list string)).

Definition run_assertion (drive : Drive.t) (fuel : nat) (call : Assertion)
    (actionDescription : string) : State → option (State * Outcome unit) :=
  match call with
  | ForFile fileId => assertWriteAccessForFile drive fuel fileId actionDescription
  | ForParent parentId => assertWriteAccessForParent drive fuel parentId actionDescription
  | ForParents parentIds => assertWriteAccessForParents drive fuel parentIds actionDescription
  end.

(** The targets an assertion hands to [assertWriteAccessInternal]. *)
Definition targets_of (call : Assertion) : list string * TargetLabel :=
  match call with
  | ForFile fileId => ([fileId], file)
  | ForParent parentId => ([default "root" parentId], parent)
  | ForParents (Some (p :: ps)) => (p :: ps, parents)
  | ForParents _ => (["root"], parents)
  end.


(** ** Vocabulary of the statements *)

(** What [getFileNode] answers on an empty cache: the node of the response,
    or the error of the [catch] block. *)
Definition fetch (drive : Drive.t) (fileId : string) : FileNode.t + UserError :=
  match Drive.files_get drive fileId with
  | inl data => inl (node_of_response fileId data)
  | inr error => inr (lookup_error fileId error)
  end.

(** The error a call threw, if it threw. *)
Definition thrown {A} (r : Outcome A) : option UserError :=
  match r with
  | Return _ => None
  | Throw e => Some e
  end.

(** The requests a run from [st] to [st'] added to the history. *)
Definition issued (st st' : State) (new : list string) : Prop :=
  requests st' = requests st ++ new.

(** The visits a run from [st] to [st'] added to the history. *)
Definition visited (st st' : State) (new : list string) : Prop :=
  visits st' = visits st ++ new.

(** Every way a call of [getFileNode] can go. *)
Inductive getFileNode_case (drive : Drive.t) (fileId : string) (st : State)
  : State → Outcome FileNode.t → Prop :=
  | from_cache cached :
      parentCache st !! fileId = Some cached →
      getFileNode_case drive fileId st st (Return cached)
  | from_drive data st' :
      parentCache st !! fileId = None →
      Drive.files_get drive fileId = inl data →
      allowlistState st' = allowlistState st →
      rootResolved st' = rootResolved st →
      visits st' = visits st →
      requests st' = requests st ++ [fileId] →
      parentCache st'
      = (let node := node_of_response fileId data in
         if truthy (FileNode.id node) && negb (bool_decide (FileNode.id node = fileId))
         then <[FileNode.id node := node]> (<[fileId := node]> (parentCache st))
         else <[fileId := node]> (parentCache st)) →
      getFileNode_case drive fileId st st' (Return (node_of_response fileId data))
  | drive_failed e :
      parentCache st !! fileId = None →
      Drive.files_get drive fileId = inr e →
      getFileNode_case drive fileId st (record_request fileId st)
        (Throw (lookup_error fileId e)).

(** What every run does to the shared state, from [st] to [st'], ending
    with the error [err] if it threw: the configuration is kept, the ID set
    and the keys of the cache only grow, and each request the run issued was
    for an ID absent from the cache at the start, was issued once, and either
    put that ID in the cache or failed, ending the run with its error. *)
Definition run_ok (drive : Drive.t) (st st' : State) (err : option UserError) : Prop :=
  AllowlistState.enabled (allowlistState st') = AllowlistState.enabled (allowlistState st)
  ∧ AllowlistState.sources (allowlistState st') = AllowlistState.sources (allowlistState st)
  ∧ AllowlistState.error (allowlistState st') = AllowlistState.error (allowlistState st)
  ∧ ids st ⊆ ids st'
  ∧ dom (parentCache st) ⊆ dom (parentCache st')
  ∧ ∃ new,
      issued st st' new
      ∧ NoDup new
      ∧ (∀ k, k ∈ new → k ∉ dom (parentCache st))
      ∧ (∀ k, k ∈ new →
           match Drive.files_get drive k with
           | inl _ => k ∈ dom (parentCache st')
           | inr e =>
               err = Some (lookup_error k e)
               ∧ (k ∉ dom (parentCache st'))
               ∧ ∃ before, new = before ++ [k]
           end).

(** A string without newline or comma. *)
Fixpoint separator_free (s : string) : bool :=
  match s with
  | EmptyString => true
  | String c r => negb (is_separator c) && separator_free r
  end.

(** [pieces s l]: cutting [s] at every newline and comma leaves the pieces
    [l], in order. *)
Inductive pieces : string → list string → Prop :=
  | pieces_last s :
      separator_free s = true → pieces s [s]
  | pieces_cut p c rest l :
      separator_free p = true → is_separator c = true → pieces rest l →
      pieces (p +:+ String c rest) (p :: l).

(** A string of white space only. *)
Fixpoint all_white (s : string) : bool :=
  match s with
  | EmptyString => true
  | String c r => is_white c && all_white r
  end.

(** A string that neither starts nor ends with a white-space character. *)
Definition bare (x : string) : Prop :=
  (∀ c r, x = String c r → is_white c = false)
  ∧ (∀ r c, x = r +:+ String c "" → is_white c = false).

(** [stripped s x]: [x] is [s] without the white space at its two ends. *)
Definition stripped (s x : string) : Prop :=
  ∃ before after,
    s = before +:+ x +:+ after
    ∧ all_white before = true ∧ all_white after = true ∧ bare x.

(** Allowlist content that is read as plain text: without the white space
    around it, it starts with neither a brace nor a bracket. *)
Definition plain_text (rawValue : string) : Prop :=
  ∃ text,
    stripped rawValue text
    ∧ startsWith text "{" = false ∧ startsWith text "[" = false.

(** The raw contents of the configuration sources that are present. *)
Definition is_source (readFileSync : string → string + JsError)
    (allowlistValue allowlistPath : option string) (src : string) : Prop :=
  allowlistValue = Some src
  ∨ ∃ path, allowlistPath = Some path ∧ readFileSync path = inl src.

(** ** The remote hierarchy *)

(** Every cached node is the node the store answers for its key. *)
Definition coherent (drive : Drive.t) (st : State) : Prop :=
  ∀ k n, parentCache st !! k = Some n → fetch drive k = inl n.

(** The store answers an ID and the ID it reports for it alike: when a lookup
    of [k] yields a node with ID [k'], a lookup of [k'] yields that node. *)
Definition alias_consistent (drive : Drive.t) : Prop :=
  ∀ k n, fetch drive k = inl n → fetch drive (FileNode.id n) = inl n.

(** Once the root has been resolved, its ID is in the ID set. *)
Definition root_normalized (drive : Drive.t) (st : State) : Prop :=
  rootResolved st = true → "root" ∈ ids st →
  ∀ n, fetch drive "root" = inl n → FileNode.id n ∈ ids st.

(** [p] is a parent of the non-empty ID [k]. *)
Definition parent_of (drive : Drive.t) (k p : string) : Prop :=
  k ≠ "" ∧ ∃ n, fetch drive k = inl n ∧ p ∈ FileNode.parents n.

(** The non-empty ID [k] is in [L], or the ID the store reports for it is. *)
Definition allowlisted (drive : Drive.t) (L : gset string) (k : string) : Prop :=
  k ≠ "" ∧ (k ∈ L ∨ ∃ n, fetch drive k = inl n ∧ FileNode.id n ∈ L).

(** [target] or one of its ancestors is allowlisted. *)
Definition within (drive : Drive.t) (L : gset string) (target : string) : Prop :=
  ∃ a, rtc (parent_of drive) target a ∧ allowlisted drive L a.

(** The condition in the words of the specification: the target equals an ID
    of [L], or a chain of parents leads from it to an ID of [L]. *)
Definition has_parent (drive : Drive.t) (k p : string) : Prop :=
  ∃ n, fetch drive k = inl n ∧ p ∈ FileNode.parents n.

Definition within_as_specified (drive : Drive.t) (L : gset string) (target : string)
  : Prop :=
  ∃ a, a ∈ L ∧ rtc (has_parent drive) target a.

(** The traversal with the cache taken out: [getFileNode] replaced by
    [fetch], the ID set fixed. *)
Fixpoint search (drive : Drive.t) (L : gset string) (fuel : nat)
    (queue : list string) (seen : gset string) : option (Outcome bool) :=
  match fuel with
  | O => None
  | S fuel =>
      match queue with
      | [] => Some (Return false)
      | currentId :: queue =>
          if negb (truthy currentId) || bool_decide (currentId ∈ seen)
          then search drive L fuel queue seen
          else
            let seen := {[currentId]} ∪ seen in
            if bool_decide (currentId ∈ L) then Some (Return true)
            else
              match fetch drive currentId with
              | inr e => Some (Throw e)
              | inl node =>
                  if bool_decide (FileNode.id node ∈ L) then Some (Return true)
                  else
                    search drive L fuel
                      (queue ++ filter (λ parentId, parentId ∉ seen) (FileNode.parents node))
                      seen
              end
      end
  end.

(** The IDs the store reports for its files. *)
Definition reported_ids (drive : Drive.t) : gset string :=
  list_to_set
    ((λ entry, FileNode.id (node_of_response entry.1 entry.2))
       <$> map_to_list (Drive.files drive)).

(** Every ID a lookup can succeed on, now or later. *)
Definition universe (drive : Drive.t) (st : State) : gset string :=
  dom (parentCache st) ∪ dom (Drive.files drive) ∪ reported_ids drive.

(** [U] holds every key of the cache and, for every file of the store, its
    ID and the ID the store reports for it. *)
Definition covers (drive : Drive.t) (U : gset string) (st : State) : Prop :=
  dom (parentCache st) ⊆ U
  ∧ ∀ k data, Drive.files drive !! k = Some data →
              k ∈ U ∧ FileNode.id (node_of_response k data) ∈ U.

(** A store holding two files that are each other's parent. *)
Definition cycle_drive (A B : string) (failure : string → Drive.Error) : Drive.t :=
  {| Drive.files :=
       {[ A := {| Drive.id := Some A; Drive.parents := Some [B] |};
          B := {| Drive.id := Some B; Drive.parents := Some [A] |} ]};
     Drive.failure := failure |}.

(** [S] holds no allowlisted ID and, [""] apart, every parent of its IDs. *)
Definition closed_outside (drive : Drive.t) (L S : gset string) : Prop :=
  ∀ x, x ∈ S →
    ¬ allowlisted drive L x
    ∧ ∀ p, parent_of drive x p → p = "" ∨ p ∈ S.

(** The invariant of a running process. *)
Definition state_inv (drive : Drive.t) (st : State) : Prop :=
  coherent drive st ∧ root_normalized drive st.


(** A decidable form of [alias_consistent]. *)
Global Instance FileNode_eq_dec : EqDecision FileNode.t.
Proof. solve_decision. Defined.

Global Instance TargetLabel_eq_dec : EqDecision TargetLabel.
Proof. solve_decision. Defined.

Global Instance UserError_eq_dec : EqDecision UserError.
Proof. solve_decision. Defined.

Definition alias_consistentb (drive : Drive.t) : bool :=
  bool_decide
    (map_Forall
       (λ k data,
          fetch drive (FileNode.id (node_of_response k data))
          = inl (node_of_response k data))
       (Drive.files drive)).

(** ** Example stores and configurations *)

Definition not_found : Drive.Error :=
  {| Drive.code := Drive.Status 404%Z;
     Drive.response_message := Some "File not found.";
     Drive.message := Some "File not found." |}.

(** The file A in the folder F1, and nothing else. *)
Definition example_drive : Drive.t :=
  {| Drive.files :=
       {[ "A" := {| Drive.id := Some "A"; Drive.parents := Some ["F1"] |};
          "F1" := {| Drive.id := Some "F1"; Drive.parents := None |} ]};
     Drive.failure := λ _, not_found |}.

(** A store whose root folder has the ID R and answers to the alias "root". *)
Definition root_drive : Drive.t :=
  {| Drive.files :=
       {[ "root" := {| Drive.id := Some "R"; Drive.parents := Some [] |};
          "R" := {| Drive.id := Some "R"; Drive.parents := Some [] |} ]};
     Drive.failure := λ _, not_found |}.

Definition allowing (L : gset string) : AllowlistState.t :=
  AllowlistState.mk true L ["env:" +:+ ENV_ALLOWLIST] None.

(** ** The status summary and the life of a process *)

From stdpp Require pretty.

(** [getWriteAllowlistSummary] reads the module's state; the size of the ID
    set is rendered in decimal, as a template literal renders a count. *)
Definition getWriteAllowlistSummary (st : State) : string :=
  if negb (enabled st) then "Write allowlist: disabled (full write access)."
  else if truthy (default "" (error st)) then
    "Write allowlist: ERROR (" +:+ formatSources (allowlistState st) +:+ "): "
      +:+ default "" (error st) +:+ ". Writes will be blocked."
  else if bool_decide (size (ids st) = 0) then
    "Write allowlist: enabled but empty (" +:+ formatSources (allowlistState st)
      +:+ "). Writes will be blocked."
  else
    "Write allowlist: enabled (" +:+ pretty.pretty (size (ids st)) +:+ " ID"
      +:+ (if bool_decide (size (ids st) = 1) then "" else "s") +:+ ").".

(** The errors thrown behind the two configuration gates: by a lookup or by
    the allowlist check of a target. *)
Definition from_traversal (e : UserError) : Prop :=
  match e with
  | ConfigurationError _ _ | EmptyAllowlist _ => False
  | _ => True
  end.

(** The states a process goes through: the state loaded at start, and every
    state an assertion that ended leaves behind. *)
Inductive reachable (drive : Drive.t) (config : AllowlistState.t) : State → Prop :=
  | reachable_initial : reachable drive config (initial config)
  | reachable_step st fuel call desc st' r :
      reachable drive config st →
      run_assertion drive fuel call desc st = Some (st', r) →
      reachable drive config st'.

(** An ID as the loader stores it: not empty, and without white space at
    either end. *)
Definition normalized (x : string) : Prop := x ≠ "" ∧ trim x = x.

(** An ID that can be written in a plain-text list: normalized, and free of
    newlines and commas. *)
Definition listable (x : string) : Prop := normalized x ∧ separator_free x = true.

(** The fields [extractIds] reads. *)
Definition id_fields : list string := ["ids"; "files"; "folders"].

(** [field_value fields k v]: what [parsed[k]] is for the object written with
    the fields [fields], in the order of the text: the value of the last
    field named [k], or nothing when no field has that name. *)
Definition field_value (fields : list (string * Json)) (k : string)
    (v : option Json) : Prop :=
  match v with
  | Some value => ∃ before after, fields = before ++ (k, value) :: after ∧ k ∉ after.*1
  | None => k ∉ fields.*1
  end.

(** The strings one field contributes: a string itself, an array the
    [String] of each of its items, anything else nothing. *)
Definition contributes (v : option Json) (strings : list string) : Prop :=
  match v with
  | Some (JString s) => strings = [s]
  | Some (JArray items) => Forall2 (λ item s, js_String item = inl s) items strings
  | _ => strings = []
  end.

(** White space that may surround a separator: no newline in it. *)
Definition padding (s : string) : Prop :=
  all_white s = true ∧ separator_free s = true.

(** Content that names no ID: white space and commas only. *)
Fixpoint blank (s : string) : bool :=
  match s with
  | EmptyString => true
  | String c r => (is_white c || is_separator c) && blank r
  end.

(** ** Examples of structured content *)

Definition DQUOTE : ascii := "034"%char.

Definition quoted (s : string) : string := String DQUOTE s +:+ String DQUOTE "".

Definition SyntaxError : JsError :=
  {| js_message := "Unexpected token"; js_toString := "SyntaxError: Unexpected token" |}.

Definition ENOENT : JsError :=
  {| js_message := "ENOENT"; js_toString := "Error: ENOENT" |}.

(** An array with a padded ID and a number. *)
Definition padded_array_text : string := "[" +:+ quoted " F2 " +:+ ", 7]".

(** An array whose first item is an object with a property named toString. *)
Definition hidden_toString_text : string :=
  "[{" +:+ quoted "toString" +:+ ":1}," +:+ quoted "F1" +:+ "]".

(** [JSON.parse] on the two texts above; any other text is taken as
    malformed. *)
Definition example_JSON_parse (text : string) : Json + JsError :=
  if bool_decide (text = padded_array_text) then
    inl (JArray [JString " F2 "; JNumber "7"])
  else if bool_decide (text = hidden_toString_text) then
    inl (JArray [JObject [("toString", JNumber "1")]; JString "F1"])
  else inr SyntaxError.

(** * Properties *)

Lemma run_assertion_internal drive fuel call desc st :
  run_assertion drive fuel call desc st
  = assertWriteAccessInternal drive fuel (targets_of call).1 desc (targets_of call).2 st.
Proof. destruct call as [?|?|[[|??]|]]; reflexivity. Qed.

(** ** The gates in front of the traversal *)

(** The allowlist is disabled exactly when neither the inline value nor the
    file path is configured. *)
Lemma disabled_iff_unconfigured JSON_parse readFileSync allowlistValue allowlistPath :
  AllowlistState.enabled
    (loadAllowlistState JSON_parse readFileSync allowlistValue allowlistPath) = false
  ↔ allowlistValue = None ∧ allowlistPath = None.
Proof.
  unfold loadAllowlistState.
  destruct allowlistValue as [value|];
    [destruct (parseAllowlistInput JSON_parse value) |];
    (destruct allowlistPath as [path|];
     [destruct (readFileSync path) as [contents|];
      [destruct (parseAllowlistInput JSON_parse contents) |] |]);
    cbn [AllowlistState.enabled]; split; (done || by intros []).
Qed.

(** C2. With the allowlist disabled every assertion returns normally for
    every target, whatever the fuel, and leaves the whole state, the history
    of remote requests included, as it was. *)
Theorem disabled_allowlist_permits_every_write drive fuel call desc st :
  enabled st = false →
  run_assertion drive fuel call desc st = Some (st, Return ()).
Proof.
  intros Hoff. rewrite run_assertion_internal.
  unfold assertWriteAccessInternal. by rewrite Hoff.
Qed.

(** C4. With the allowlist enabled and a configuration error recorded, every
    assertion throws the configuration error, whatever the ID set and the
    target, and leaves the state, the request history included, as it was. *)
Theorem configuration_error_blocks_every_write drive fuel call desc st e :
  enabled st = true →
  error st = Some e →
  e ≠ "" →
  run_assertion drive fuel call desc st
  = Some (st, Throw (ConfigurationError (formatSources (allowlistState st)) e)).
Proof.
  intros Hon He Hne. rewrite run_assertion_internal.
  unfold assertWriteAccessInternal. rewrite Hon, He. simpl.
  destruct e; [done | reflexivity].
Qed.

(** C3. With the allowlist enabled, no configuration error and an empty ID
    set, every assertion throws the empty-allowlist error for every target and
    leaves the state, the request history included, as it was. *)
Theorem empty_allowlist_blocks_every_write drive fuel call desc st :
  enabled st = true →
  error st = None →
  ids st = ∅ →
  run_assertion drive fuel call desc st
  = Some (st, Throw (EmptyAllowlist (formatSources (allowlistState st)))).
Proof.
  intros Hon He Hids. rewrite run_assertion_internal.
  unfold assertWriteAccessInternal. rewrite Hon, He, Hids.
  cbn [negb default truthy]. by rewrite size_empty.
Qed.

(** ** What [String] may throw *)

Lemma Json_induction (P : Json → Prop) :
  P JNull → (∀ b, P (JBool b)) → (∀ shown, P (JNumber shown)) → (∀ s, P (JString s)) →
  (∀ items, Forall P items → P (JArray items)) →
  (∀ fields, Forall (λ kv, P kv.2) fields → P (JObject fields)) →
  ∀ j, P j.
Proof.
  intros Hnull Hbool Hnumber Hstring Harray Hobject. fix IH 1.
  intros [|b|shown|s|items|fields].
  - apply Hnull.
  - apply Hbool.
  - apply Hnumber.
  - apply Hstring.
  - apply Harray. induction items as [|item rest IHrest]; constructor;
      [apply IH | apply IHrest].
  - apply Hobject. induction fields as [|[k v] rest IHrest]; constructor;
      [apply IH | apply IHrest].
Qed.

Lemma map_throwing_inr {A B : Type} (f : A → B + JsError) items e :
  map_throwing f items = inr e → ∃ item, item ∈ items ∧ f item = inr e.
Proof.
  induction items as [|item rest IH]; [done |]. cbn [map_throwing].
  destruct (f item) as [b|e'] eqn:Hitem.
  - destruct (map_throwing f rest) as [bs|e'']; [done |]. intros [= <-].
    destruct IH as (item' & Hin & Hf); [done |]. exists item'.
    split; [by apply elem_of_cons; right | done].
  - intros [= <-]. exists item. split; [by apply elem_of_cons; left | done].
Qed.

Lemma map_throwing_inl {A B : Type} (f : A → B + JsError) items out :
  map_throwing f items = inl out ↔ Forall2 (λ item b, f item = inl b) items out.
Proof.
  revert out. induction items as [|item rest IH]; intros out; cbn [map_throwing].
  - split; [by intros [= <-]; constructor | by inversion 1].
  - destruct (f item) as [b|e] eqn:Hitem.
    + destruct (map_throwing f rest) as [bs|e] eqn:Hrest.
      * split.
        -- intros [= <-]. constructor; [done | by apply IH].
        -- inversion 1 as [|? b' ? bs' Hb Hbs]; subst.
           apply IH in Hbs. congruence.
      * split; [done |]. inversion 1 as [|? b' ? bs' Hb Hbs]; subst.
        by apply IH in Hbs.
    + split; [done |]. inversion 1; congruence.
Qed.

(** The only error [String] throws on a parsed value. *)
Lemma js_String_throws j e : js_String j = inr e → e = TypeError_primitive.
Proof.
  revert e. induction j as [|b|shown|s|items IH|fields _] using Json_induction;
    intros e; cbn [js_String]; try done.
  - by destruct b.
  - destruct (map_throwing _ items) as [shown|e'] eqn:Hitems; [done |].
    intros [= <-]. apply map_throwing_inr in Hitems as (item & Hin & Hitem).
    rewrite Forall_forall in IH. destruct item; try done; by eapply IH.
  - destruct (get_field fields "toString"); [by intros [= <-] | done].
Qed.

Lemma extractIds_from_throws parsed fields : ∀ ids e,
  extractIds_from parsed fields ids = inr e → e = TypeError_primitive.
Proof.
  induction fields as [|field rest IH]; intros ids e; cbn [extractIds_from]; [done |].
  destruct (get_field parsed field) as [[| | | |value|]|]; try apply IH.
  destruct (map_throwing js_String value) as [strings|e'] eqn:Hvalue; [apply IH |].
  intros [= <-]. apply map_throwing_inr in Hvalue as (item & _ & Hitem).
  by eapply js_String_throws.
Qed.

(** What [parseAllowlistInput] throws: the error of [JSON.parse], the
    [TypeError] of [String], or its own error for a value that is neither an
    array, an object nor a string. *)
Lemma parseAllowlistInput_throws JSON_parse rawValue e :
  parseAllowlistInput JSON_parse rawValue = inr e →
  JSON_parse (trim rawValue) = inr e
  ∨ e = TypeError_primitive
  ∨ js_message e = "Allowlist JSON must be an array or object with ids/files/folders.".
Proof.
  unfold parseAllowlistInput.
  destruct (negb (truthy (trim rawValue))); [done |].
  destruct (_ || _); [|done].
  destruct (JSON_parse (trim rawValue)) as [[| | | |items|fields]|e'] eqn:Hp; try done;
    try (by intros [= <-]; right; right).
  - intros Hitems. apply map_throwing_inr in Hitems as (item & _ & Hitem).
    right. left. by eapply js_String_throws.
  - intros Hfields. right. left. by eapply extractIds_from_throws.
  - intros [= <-]. by left.
Qed.

(** The loader never records an empty error message, provided [JSON.parse]
    describes its failures: the error a state carries is set exactly when it
    is a non-empty string. *)
Lemma loaded_error_is_not_empty JSON_parse readFileSync allowlistValue allowlistPath :
  (∀ s e, JSON_parse s = inr e → describe e ≠ "") →
  AllowlistState.error
    (loadAllowlistState JSON_parse readFileSync allowlistValue allowlistPath)
  ≠ Some "".
Proof.
  intros Hparse.
  assert (Happ : ∀ x y, x ≠ "" → x +:+ y ≠ "").
  { by intros [|c x] y Hx. }
  assert (Hin : ∀ raw e, parseAllowlistInput JSON_parse raw = inr e → describe e ≠ "").
  { intros raw e [He| [->|He]]%parseAllowlistInput_throws.
    - by eapply Hparse.
    - done.
    - unfold describe. rewrite He. done. }
  unfold loadAllowlistState.
  destruct allowlistValue as [value|];
    [destruct (parseAllowlistInput JSON_parse value) as [parsed|e] eqn:Hv |];
    (destruct allowlistPath as [path|];
     [destruct (readFileSync path) as [contents|e'];
      [destruct (parseAllowlistInput JSON_parse contents) as [parsed'|e'']|] |]);
    cbn [AllowlistState.error app]; try done;
    intros [= Hempty]; revert Hempty;
    first [ by eapply Hin | by apply Happ; eauto ].
Qed.

(** ** The resolver *)

Lemma getFileNode_hit drive fileId st cached :
  parentCache st !! fileId = Some cached →
  getFileNode drive fileId st = (st, Return cached).
Proof. intros H. unfold getFileNode. by rewrite H. Qed.

Lemma getFileNode_failure drive fileId st e :
  parentCache st !! fileId = None →
  Drive.files_get drive fileId = inr e →
  getFileNode drive fileId st
  = (record_request fileId st, Throw (lookup_error fileId e)).
Proof. intros Hc Hd. unfold getFileNode. by rewrite Hc, Hd. Qed.

Lemma getFileNode_success drive fileId st data :
  let node := node_of_response fileId data in
  parentCache st !! fileId = None →
  Drive.files_get drive fileId = inl data →
  ∃ st',
    getFileNode drive fileId st = (st', Return node)
    ∧ allowlistState st' = allowlistState st
    ∧ rootResolved st' = rootResolved st
    ∧ visits st' = visits st
    ∧ requests st' = requests st ++ [fileId]
    ∧ parentCache st'
      = (if truthy (FileNode.id node) && negb (bool_decide (FileNode.id node = fileId))
         then <[FileNode.id node := node]> (<[fileId := node]> (parentCache st))
         else <[fileId := node]> (parentCache st)).
Proof.
  intros node Hc Hd. unfold getFileNode. rewrite Hc, Hd. fold node.
  eexists. split; [reflexivity |].
  destruct (truthy (FileNode.id node) && negb (bool_decide (FileNode.id node = fileId)));
    by repeat split.
Qed.

Lemma getFileNode_cases drive fileId st :
  getFileNode_case drive fileId st
    (getFileNode drive fileId st).1 (getFileNode drive fileId st).2.
Proof.
  destruct (parentCache st !! fileId) as [cached|] eqn:Hc.
  - rewrite (getFileNode_hit _ _ _ _ Hc). by constructor.
  - destruct (Drive.files_get drive fileId) as [data|e] eqn:Hd.
    + destruct (getFileNode_success drive fileId st data Hc Hd)
        as (st' & -> & ? & ? & ? & ? & ?).
      by constructor.
    + rewrite (getFileNode_failure _ _ _ _ Hc Hd). by constructor.
Qed.

Lemma dom_cache_after_success (c c' : gmap string FileNode.t) fileId node (b : bool) :
  c' = (if b then <[FileNode.id node := node]> (<[fileId := node]> c)
        else <[fileId := node]> c) →
  fileId ∈ dom c' ∧ dom c ⊆ dom c'.
Proof. intros ->. destruct b; rewrite !dom_insert_L; set_solver. Qed.

(** ** What a run does to the shared state *)

Lemma run_ok_same_config drive st st' err new :
  allowlistState st' = allowlistState st →
  dom (parentCache st) ⊆ dom (parentCache st') →
  requests st' = requests st ++ new →
  NoDup new →
  (∀ k, k ∈ new → k ∉ dom (parentCache st)) →
  (∀ k, k ∈ new →
     match Drive.files_get drive k with
     | inl _ => k ∈ dom (parentCache st')
     | inr e =>
         err = Some (lookup_error k e)
         ∧ (k ∉ dom (parentCache st'))
         ∧ ∃ before, new = before ++ [k]
     end) →
  run_ok drive st st' err.
Proof.
  intros Ha Hdom Hreq Hnd Hmiss Hlast. unfold run_ok, ids. rewrite Ha.
  split_and!; [done | done | done | done | done |].
  exists new. by split_and!.
Qed.

Lemma run_ok_no_request drive st st' err :
  allowlistState st' = allowlistState st →
  parentCache st' = parentCache st →
  requests st' = requests st →
  run_ok drive st st' err.
Proof.
  intros Ha Hc Hr. apply run_ok_same_config with (new := []).
  - done.
  - by rewrite Hc.
  - by rewrite app_nil_r.
  - constructor.
  - by intros k ?%elem_of_nil.
  - by intros k ?%elem_of_nil.
Qed.

Lemma run_ok_refl drive st err : run_ok drive st st err.
Proof. by apply run_ok_no_request. Qed.

Lemma run_ok_trans drive st st1 st2 err :
  run_ok drive st st1 None → run_ok drive st1 st2 err → run_ok drive st st2 err.
Proof.
  intros (E1 & S1 & R1 & I1 & D1 & new1 & N1 & U1 & F1 & L1)
         (E2 & S2 & R2 & I2 & D2 & new2 & N2 & U2 & F2 & L2).
  assert (Hin1 : ∀ k, k ∈ new1 → k ∈ dom (parentCache st1)).
  { intros k Hk. specialize (L1 k Hk).
    destruct (Drive.files_get drive k); [done | by destruct L1]. }
  unfold run_ok.
  split_and!; [congruence | congruence | congruence | set_solver | set_solver |].
  exists (new1 ++ new2). unfold issued in *. split_and!.
  - by rewrite N2, N1, app_assoc.
  - apply NoDup_app. split_and!; [done | | done].
    intros k Hk1 Hk2. apply (F2 k Hk2), Hin1, Hk1.
  - intros k [Hk|Hk]%elem_of_app; [by apply F1 |].
    intros Hd. apply (F2 k Hk). set_solver.
  - intros k [Hk|Hk]%elem_of_app.
    + specialize (L1 k Hk). destruct (Drive.files_get drive k); [set_solver |].
      by destruct L1.
    + specialize (L2 k Hk). destruct (Drive.files_get drive k); [done |].
      destruct L2 as (? & ? & before & ->). split_and!; [done | done |].
      exists (new1 ++ before). by rewrite app_assoc.
Qed.

Lemma run_ok_record_visit drive st currentId err :
  run_ok drive st (record_visit currentId st) err.
Proof. by apply run_ok_no_request. Qed.

Lemma getFileNode_run_ok drive fileId st st' r :
  getFileNode drive fileId st = (st', r) → run_ok drive st st' (thrown r).
Proof.
  intros Hg. pose proof (getFileNode_cases drive fileId st) as Hc.
  rewrite Hg in Hc. simpl in Hc.
  inversion Hc as [cached Hhit | data st0 Hmiss Hd Ha Hr Hv Hq Hcache | e Hmiss Hd]; subst.
  - apply run_ok_refl.
  - destruct (dom_cache_after_success _ _ _ _ _ Hcache) as [Hin Hsub].
    apply run_ok_same_config with (new := [fileId]);
      [done | done | done | apply NoDup_singleton | |].
    + intros k ->%list_elem_of_singleton. by apply not_elem_of_dom.
    + intros k ->%list_elem_of_singleton. by rewrite Hd.
  - apply run_ok_same_config with (new := [fileId]);
      [done | done | done | apply NoDup_singleton | |].
    + intros k ->%list_elem_of_singleton. by apply not_elem_of_dom.
    + intros k ->%list_elem_of_singleton. rewrite Hd. simpl.
      split_and!; [done | by apply not_elem_of_dom | by exists []].
Qed.

Lemma loop_run_ok drive fuel :
  ∀ queue seen st st' r,
    isIdWithinAllowlist_loop drive fuel queue seen st = Some (st', r) →
    run_ok drive st st' (thrown r).
Proof.
  induction fuel as [|fuel IH]; intros queue seen st st' r Hrun; [done |].
  simpl in Hrun. destruct queue as [|currentId queue].
  { inversion Hrun; subst. apply run_ok_refl. }
  destruct (negb (truthy currentId) || bool_decide (currentId ∈ seen)); [by eapply IH |].
  assert (Hv := run_ok_record_visit drive st currentId None).
  destruct (bool_decide (currentId ∈ ids (record_visit currentId st))).
  { inversion Hrun; subst. apply run_ok_record_visit. }
  destruct (getFileNode drive currentId (record_visit currentId st)) as [st1 [node|e]] eqn:Hg.
  - apply getFileNode_run_ok in Hg. simpl in Hg.
    assert (H1 := run_ok_trans _ _ _ _ _ Hv Hg).
    destruct (bool_decide (FileNode.id node ∈ ids st1)).
    + inversion Hrun; subst. simpl.
      eapply run_ok_trans; [exact H1 | apply run_ok_refl].
    + eapply run_ok_trans; [exact H1 | by eapply IH].
  - apply getFileNode_run_ok in Hg. inversion Hrun; subst.
    by eapply run_ok_trans.
Qed.

Lemma check_targets_run_ok drive fuel desc label :
  ∀ targetIds st st' r,
    check_targets drive fuel desc label targetIds st = Some (st', r) →
    run_ok drive st st' (thrown r).
Proof.
  induction targetIds as [|targetId rest IH]; intros st st' r Hrun; simpl in Hrun.
  { inversion Hrun; subst. apply run_ok_refl. }
  unfold isIdWithinAllowlist in Hrun.
  destruct (isIdWithinAllowlist_loop drive fuel [targetId] ∅ st)
    as [[st1 [allowed|e]]|] eqn:Hloop; [| |done].
  - apply loop_run_ok in Hloop. simpl in Hloop. destruct allowed.
    + eapply run_ok_trans; [exact Hloop | by eapply IH].
    + inversion Hrun; subst. simpl.
      destruct Hloop as (? & ? & ? & ? & ? & new & ? & ? & ? & Hl).
      repeat split; try done. exists new. repeat split; try done.
      intros k Hk. specialize (Hl k Hk).
      destruct (Drive.files_get drive k); [done | by destruct Hl].
  - apply loop_run_ok in Hloop. by inversion Hrun; subst.
Qed.

Lemma ensureRootResolved_run_ok drive st st' r :
  ensureRootResolved drive st = (st', r) → run_ok drive st st' (thrown r).
Proof.
  unfold ensureRootResolved.
  destruct (rootResolved st || negb (bool_decide ("root" ∈ ids st))).
  { intros [= <- <-]. apply run_ok_refl. }
  destruct (getFileNode drive "root" st) as [st1 [rootNode|e]] eqn:Hg;
    apply getFileNode_run_ok in Hg; intros [= <- <-]; [|done].
  eapply run_ok_trans; [exact Hg |].
  destruct (truthy (FileNode.id rootNode)
            && negb (bool_decide (FileNode.id rootNode = "root")));
    repeat split; try done; try (unfold ids; simpl; set_solver);
    exists []; unfold issued; simpl; rewrite app_nil_r;
    (repeat split; [constructor | set_solver | set_solver]).
Qed.

Lemma assertWriteAccessInternal_run_ok drive fuel targetIds desc label st st' r :
  assertWriteAccessInternal drive fuel targetIds desc label st = Some (st', r) →
  run_ok drive st st' (thrown r).
Proof.
  unfold assertWriteAccessInternal.
  destruct (negb (enabled st)); [intros [= <- <-]; apply run_ok_refl |].
  destruct (truthy (default "" (error st))); [intros [= <- <-]; apply run_ok_refl |].
  destruct (bool_decide (size (ids st) = 0)); [intros [= <- <-]; apply run_ok_refl |].
  destruct (ensureRootResolved drive st) as [st1 [[]|e]] eqn:Hroot;
    apply ensureRootResolved_run_ok in Hroot.
  - intros Hrun. eapply run_ok_trans; [exact Hroot |].
    by eapply check_targets_run_ok.
  - by intros [= <- <-].
Qed.

Lemma run_assertion_run_ok drive fuel call desc st st' r :
  run_assertion drive fuel call desc st = Some (st', r) →
  run_ok drive st st' (thrown r).
Proof. rewrite run_assertion_internal. apply assertWriteAccessInternal_run_ok. Qed.

(** ** Failed lookups *)

Lemma failed_request_ends_run drive st st' err new k e :
  run_ok drive st st' err →
  issued st st' new →
  k ∈ new →
  Drive.files_get drive k = inr e →
  err = Some (lookup_error k e)
  ∧ parentCache st' !! k = None
  ∧ ∃ before, new = before ++ [k] ∧ k ∉ before.
Proof.
  intros (_ & _ & _ & _ & _ & new' & Hnew' & Hnd & _ & Hl) Hnew Hk Hd.
  unfold issued in *. rewrite Hnew in Hnew'. apply app_inv_head in Hnew'. subst new'.
  specialize (Hl k Hk). rewrite Hd in Hl. destruct Hl as (-> & Hout & before & ->).
  repeat split; [by apply not_elem_of_dom |].
  exists before. split; [done |].
  apply NoDup_app in Hnd as (_ & Hdisj & _). intros Hin.
  apply (Hdisj k Hin). by apply list_elem_of_singleton.
Qed.


(** C10. A lookup that misses the cache and fails leaves the cache as it was
    and only records the request; a lookup that misses and succeeds stores the
    node under the requested ID, and under the node's own ID when that is
    non-empty and different, and touches no other key. Hence, after an
    assertion in which the request for an ID failed, that ID is still absent
    from the cache and the next lookup of it sends a new request. *)
Theorem only_successful_lookups_are_cached drive :
  (∀ fileId st,
     parentCache st !! fileId = None →
     match Drive.files_get drive fileId with
     | inr e =>
         getFileNode drive fileId st
         = (record_request fileId st, Throw (lookup_error fileId e))
         ∧ parentCache (record_request fileId st) = parentCache st
     | inl data =>
         let node := node_of_response fileId data in
         ∃ st',
           getFileNode drive fileId st = (st', Return node)
           ∧ parentCache st' !! fileId = Some node
           ∧ (FileNode.id node ≠ "" → parentCache st' !! FileNode.id node = Some node)
           ∧ ∀ key, key ≠ fileId → key ≠ FileNode.id node →
                    parentCache st' !! key = parentCache st !! key
     end)
  ∧ (∀ fuel call desc st st' r new k e,
       run_assertion drive fuel call desc st = Some (st', r) →
       issued st st' new →
       k ∈ new →
       Drive.files_get drive k = inr e →
       parentCache st' !! k = None
       ∧ getFileNode drive k st'
         = (record_request k st', Throw (lookup_error k e))
       ∧ requests (record_request k st') = requests st' ++ [k]).
Proof.
  split.
  - intros fileId st Hmiss.
    destruct (Drive.files_get drive fileId) as [data|e] eqn:Hd.
    + destruct (getFileNode_success drive fileId st data Hmiss Hd)
        as (st' & Hg & _ & _ & _ & _ & Hc).
      cbv zeta in *. exists st'. split; [done |]. rewrite Hc. clear Hc Hg.
      generalize (node_of_response fileId data). intros node.
      destruct (truthy (FileNode.id node)) eqn:Ht; cbn [andb].
      * case_bool_decide as Heq; cbn [negb].
        -- split_and!.
           ++ apply lookup_insert_eq.
           ++ intros _. rewrite Heq. apply lookup_insert_eq.
           ++ intros key Hk _. by rewrite lookup_insert_ne.
        -- split_and!.
           ++ rewrite lookup_insert_ne by done. apply lookup_insert_eq.
           ++ intros _. apply lookup_insert_eq.
           ++ intros key Hk Hk'. by rewrite !lookup_insert_ne.
      * split_and!.
        -- apply lookup_insert_eq.
        -- intros Hne. by destruct (FileNode.id node).
        -- intros key Hk _. by rewrite lookup_insert_ne.
    + split; [by apply getFileNode_failure | done].
  - intros fuel call desc st st' r new k e Hrun Hnew Hk Hd.
    apply run_assertion_run_ok in Hrun.
    destruct (failed_request_ends_run _ _ _ _ _ _ _ Hrun Hnew Hk Hd) as (_ & Hout & _).
    split_and!; [done | by apply getFileNode_failure | done].
Qed.

(** ** The configuration parser *)

Lemma append_empty_r s : s +:+ "" = s.
Proof. induction s as [|c s IH]; [done |]. unfold String.app in *. simpl. by rewrite IH. Qed.

Lemma append_assoc s t u : (s +:+ t) +:+ u = s +:+ (t +:+ u).
Proof. induction s as [|c s IH]; [done |]. unfold String.app in *. simpl. by rewrite IH. Qed.

Lemma append_cons c s t : String c s +:+ t = String c (s +:+ t).
Proof. done. Qed.

Lemma separator_free_app s t :
  separator_free (s +:+ t) = separator_free s && separator_free t.
Proof.
  induction s as [|c s IH]; [done |].
  rewrite append_cons. simpl. rewrite IH. by destruct (is_separator c).
Qed.

Lemma split_from_pieces s : ∀ piece,
  separator_free piece = true → pieces (piece +:+ s) (split_from piece s).
Proof.
  induction s as [|c r IH]; intros piece Hfree; simpl.
  - rewrite append_empty_r. by constructor.
  - destruct (is_separator c) eqn:Hc.
    + constructor; [done | done |]. by apply (IH "").
    + replace (piece +:+ String c r) with ((piece +:+ String c "") +:+ r)
        by by rewrite append_assoc.
      apply IH. rewrite separator_free_app, Hfree. simpl. by rewrite Hc.
Qed.

Lemma split_pieces s : pieces s (split s).
Proof. apply (split_from_pieces s ""). done. Qed.

Lemma split_from_separator_free s : ∀ piece,
  separator_free s = true → split_from piece s = [piece +:+ s].
Proof.
  induction s as [|c r IH]; intros piece Hfree; simpl.
  - by rewrite append_empty_r.
  - simpl in Hfree. apply andb_true_iff in Hfree as [Hc Hr].
    apply negb_true_iff in Hc. rewrite Hc, IH by done. by rewrite append_assoc.
Qed.

Lemma split_from_cut p : ∀ piece c rest,
  separator_free p = true → is_separator c = true →
  split_from piece (p +:+ String c rest) = (piece +:+ p) :: split_from "" rest.
Proof.
  induction p as [|c' p IH]; intros piece c rest Hfree Hc.
  - rewrite append_empty_r. change ("" +:+ String c rest) with (String c rest).
    simpl. by rewrite Hc.
  - simpl in Hfree. apply andb_true_iff in Hfree as [Hc' Hp].
    apply negb_true_iff in Hc'. rewrite append_cons. simpl. rewrite Hc'.
    rewrite IH by done. by rewrite append_assoc.
Qed.

Lemma pieces_split s l : pieces s l → l = split s.
Proof.
  unfold split. induction 1 as [s Hfree | p c rest l Hp Hc _ IH].
  - by rewrite split_from_separator_free.
  - rewrite split_from_cut by done. by rewrite <- IH.
Qed.

Lemma trimStart_head s :
  match trimStart s with
  | String c _ => is_white c = false
  | EmptyString => True
  end.
Proof.
  induction s as [|c s IH]; [done |]. simpl.
  by destruct (is_white c) eqn:Hc.
Qed.

Lemma trimEnd_idempotent s : trimEnd (trimEnd s) = trimEnd s.
Proof.
  induction s as [|c s IH]; [done |]. simpl.
  destruct (trimEnd s) as [|c' t] eqn:Ht.
  - destruct (is_white c) eqn:Hc; [done |]. simpl. by rewrite Hc.
  - simpl. simpl in IH. destruct (trimEnd t) eqn:Ht'.
    + by destruct (is_white c'); simplify_eq.
    + by simplify_eq.
Qed.

Lemma trimEnd_head c r :
  is_white c = false → ∃ r', trimEnd (String c r) = String c r'.
Proof. intros Hc. simpl. destruct (trimEnd r); [rewrite Hc |]; eauto. Qed.

Lemma trim_idempotent s : trim (trim s) = trim s.
Proof.
  unfold trim. pose proof (trimStart_head s) as Hhead.
  destruct (trimStart s) as [|c r]; [done |].
  destruct (trimEnd_head c r Hhead) as [r' Hr']. rewrite Hr'.
  simpl trimStart. rewrite Hhead. rewrite <- Hr'. apply trimEnd_idempotent.
Qed.

Lemma truthy_nonempty s : truthy s = true ↔ s ≠ "".
Proof. by destruct s. Qed.

Lemma append_empty_l s : "" +:+ s = s.
Proof. done. Qed.

Lemma trimStart_length s : String.length (trimStart s) ≤ String.length s.
Proof.
  induction s as [|c s IH]; [done |]. simpl. destruct (is_white c); simpl; lia.
Qed.

Lemma trimEnd_length s : String.length (trimEnd s) ≤ String.length s.
Proof.
  induction s as [|c s IH]; [done |]. simpl.
  destruct (trimEnd s); [destruct (is_white c) |]; simpl in *; lia.
Qed.

Lemma trimStart_fixed s :
  String.length (trimStart s) = String.length s → trimStart s = s.
Proof.
  destruct s as [|c s]; [done |]. simpl. destruct (is_white c); [|done].
  pose proof (trimStart_length s). simpl. lia.
Qed.

Lemma normalized_ends x :
  normalized x →
  trimStart x = x ∧ trimEnd x = x
  ∧ ∃ c r, x = String c r ∧ is_white c = false.
Proof.
  intros [Hne Htrim]. unfold trim in Htrim.
  assert (Hstart : trimStart x = x).
  { apply trimStart_fixed. pose proof (trimStart_length x).
    pose proof (trimEnd_length (trimStart x)). rewrite Htrim in *. lia. }
  split_and!; [done | by rewrite Hstart in Htrim |].
  destruct x as [|c r]; [done |]. exists c, r. split; [done |].
  simpl in Hstart. destruct (is_white c); [|done].
  pose proof (trimStart_length r). rewrite Hstart in *. simpl in *. lia.
Qed.

Lemma trimStart_app_white w s : all_white w = true → trimStart (w +:+ s) = trimStart s.
Proof.
  induction w as [|c w IH]; [done |]. cbn [all_white]. intros [Hc Hw]%andb_true_iff.
  rewrite append_cons. cbn [trimStart]. rewrite Hc. by apply IH.
Qed.

Lemma trimEnd_white w : all_white w = true → trimEnd w = "".
Proof.
  induction w as [|c w IH]; [done |]. cbn [all_white trimEnd].
  intros [Hc Hw]%andb_true_iff. by rewrite IH, Hc.
Qed.

Lemma trimEnd_app_white s w : all_white w = true → trimEnd (s +:+ w) = trimEnd s.
Proof.
  intros Hw. induction s as [|c s IH]; [by apply trimEnd_white |].
  rewrite append_cons. cbn [trimEnd]. by rewrite IH.
Qed.

Lemma trimEnd_app_fixed s y : y ≠ "" → trimEnd y = y → trimEnd (s +:+ y) = s +:+ y.
Proof.
  intros Hne Hy. induction s as [|c s IH]; [done |].
  rewrite append_cons. cbn [trimEnd]. rewrite IH.
  destruct (s +:+ y) eqn:Happ; [|done].
  destruct s; [|done]. by destruct Hne.
Qed.

Lemma trim_padded before x after :
  all_white before = true → all_white after = true → normalized x →
  trim (before +:+ x +:+ after) = x.
Proof.
  intros Hb Ha Hx. destruct (normalized_ends x Hx) as (_ & Hend & c & r & -> & Hc).
  unfold trim. rewrite trimStart_app_white by done.
  rewrite append_cons. cbn [trimStart]. rewrite Hc.
  rewrite <- append_cons. by rewrite trimEnd_app_white.
Qed.

Lemma all_white_trim s : all_white s = true → trim s = "".
Proof.
  intros Hs. unfold trim. rewrite <- (append_empty_r s).
  by rewrite trimStart_app_white.
Qed.

(** [trim] removes exactly the white space at the two ends. *)
Lemma all_white_app s t : all_white (s +:+ t) = all_white s && all_white t.
Proof.
  induction s as [|c s IH]; [done |].
  rewrite append_cons. cbn [all_white]. rewrite IH. by destruct (is_white c).
Qed.

Lemma trimStart_split s : ∃ w, s = w +:+ trimStart s ∧ all_white w = true.
Proof.
  induction s as [|c s (w & Hs & Hw)]; [by exists "" |]. cbn [trimStart].
  destruct (is_white c) eqn:Hc; [|by exists ""].
  exists (String c w). rewrite append_cons, <- Hs. split; [done |].
  cbn [all_white]. by rewrite Hc.
Qed.

Lemma trimEnd_split s : ∃ w, s = trimEnd s +:+ w ∧ all_white w = true.
Proof.
  induction s as [|c s (w & Hs & Hw)]; [by exists "" |]. cbn [trimEnd].
  destruct (trimEnd s) as [|c' t].
  - rewrite append_empty_l in Hs. subst w. destruct (is_white c) eqn:Hc.
    + exists (String c s). split; [done |]. cbn [all_white]. by rewrite Hc.
    + exists s. by split.
  - exists w. rewrite append_cons, <- Hs. by split.
Qed.

Lemma trimEnd_last s : ∀ r c, trimEnd s = r +:+ String c "" → is_white c = false.
Proof.
  induction s as [|a s IH]; intros r c; cbn [trimEnd].
  { by destruct r. }
  destruct (trimEnd s) as [|c' t].
  - destruct (is_white a) eqn:Ha; [by destruct r |].
    destruct r as [|b r]; [by intros [= ->] |].
    rewrite append_cons. intros [= _ Hr]. by destruct r.
  - destruct r as [|b r]; [done |].
    rewrite append_cons. intros [= _ Hr]. by eapply IH.
Qed.

Lemma trim_bare s : bare (trim s).
Proof.
  split.
  - intros c r. unfold trim. pose proof (trimStart_head s) as Hhead.
    destruct (trimStart s) as [|c0 r0]; [done |].
    destruct (trimEnd_head c0 r0 Hhead) as [r' ->]. by intros [= <- _].
  - intros r c. apply trimEnd_last.
Qed.

Lemma trim_stripped s : stripped s (trim s).
Proof.
  destruct (trimStart_split s) as (before & Hs & Hbefore).
  destruct (trimEnd_split (trimStart s)) as (after & Ht & Hafter).
  exists before, after. split_and!; [| done | done | apply trim_bare].
  fold (trim s) in Ht. by rewrite <- Ht.
Qed.

Lemma string_snoc x : x ≠ "" → ∃ r c, x = r +:+ String c "".
Proof.
  induction x as [|a x IH]; [done |]. intros _.
  destruct x as [|b x]; [by exists "", a |].
  destruct IH as (r & c & Hx); [done |]. exists (String a r), c.
  by rewrite append_cons, <- Hx.
Qed.

Lemma bare_trim x : bare x → trim x = x.
Proof.
  intros [Hfirst Hlast]. destruct x as [|a x]; [done |].
  unfold trim. cbn [trimStart]. rewrite (Hfirst a x eq_refl).
  destruct (string_snoc (String a x)) as (r & c & Hx); [done |]. rewrite Hx.
  apply trimEnd_app_fixed; [done |]. cbn [trimEnd]. by rewrite (Hlast r c Hx).
Qed.

Lemma stripped_trim s x : stripped s x ↔ x = trim s.
Proof.
  split; [|intros ->; apply trim_stripped].
  intros (before & after & -> & Hbefore & Hafter & Hbare).
  destruct x as [|a x].
  - rewrite append_empty_l. symmetry. apply all_white_trim.
    by rewrite all_white_app, Hbefore, Hafter.
  - symmetry. apply trim_padded; [done | done |].
    split; [done | by apply bare_trim].
Qed.

Lemma elem_of_splitList y s :
  y ∈ splitList s ↔ y ≠ "" ∧ ∃ piece, piece ∈ split s ∧ y = trim piece.
Proof.
  unfold splitList. rewrite list_elem_of_filter, list_elem_of_fmap, truthy_nonempty.
  split.
  - intros (Hy & piece & -> & Hin). eauto.
  - intros (Hy & piece & Hin & ->). eauto.
Qed.

Lemma parse_plain_text JSON_parse rawValue :
  plain_text rawValue →
  ∃ parsed,
    parseAllowlistInput JSON_parse rawValue = inl parsed
    ∧ ∀ y, y ∈ parsed ↔ y ≠ "" ∧ ∃ piece, piece ∈ split (trim rawValue) ∧ y = trim piece.
Proof.
  intros (text & ->%stripped_trim & Hbrace & Hbracket). unfold parseAllowlistInput.
  rewrite Hbrace, Hbracket. simpl.
  destruct (truthy (trim rawValue)) eqn:Ht; simpl.
  - eexists. split; [done |]. intros y. apply elem_of_splitList.
  - exists []. split; [done |]. intros y. split; [by intros ?%elem_of_nil |].
    intros (Hy & piece & Hin & ->). destruct (trim rawValue); [|done].
    apply list_elem_of_singleton in Hin. by subst.
Qed.

Lemma elem_of_normalized_ids (l : list string) x :
  x ∈ (list_to_set (filter (λ id, truthy id = true) (trim <$> l)) : gset string)
  ↔ x ≠ "" ∧ ∃ y, y ∈ l ∧ x = trim y.
Proof.
  rewrite elem_of_list_to_set, list_elem_of_filter, list_elem_of_fmap, truthy_nonempty.
  split.
  - intros (Hx & y & -> & Hin). eauto.
  - intros (Hx & y & Hin & ->). eauto.
Qed.

Lemma plain_piece_normalized (parsed : list string) src :
  (∀ y, y ∈ parsed ↔ y ≠ "" ∧ ∃ piece, piece ∈ split (trim src) ∧ y = trim piece) →
  ∀ x, (x ≠ "" ∧ ∃ y, y ∈ parsed ∧ x = trim y)
       ↔ (x ≠ ""
          ∧ ∃ text l piece,
              stripped src text ∧ pieces text l ∧ piece ∈ l ∧ stripped piece x).
Proof.
  intros Hparsed x. split.
  - intros (Hx & y & Hy & ->). apply Hparsed in Hy as (_ & piece & Hin & ->).
    split; [done |]. exists (trim src), (split (trim src)), piece.
    split_and!; [apply trim_stripped | apply split_pieces | done |].
    rewrite trim_idempotent. apply trim_stripped.
  - intros (Hx & text & l & piece & ->%stripped_trim & Hl & Hin & ->%stripped_trim).
    apply pieces_split in Hl as ->.
    split; [done |]. exists (trim piece). rewrite trim_idempotent. split; [|done].
    apply Hparsed. eauto.
Qed.

(** C8. When every configuration source that is present holds plain text and
    the allowlist file, if configured, can be read, loading the configuration
    records no error, and the ID set holds exactly the strings obtained as
    follows: take a source without the white space around it, cut it at its
    newlines and commas, take a piece without the white space around it, and
    keep it if it is not empty. Being a set, it holds each ID once, whichever
    source it came from. What removing the white space around a string means
    is said by [stripped], not by the parser's own [trim]. The inline value
    "F1, F2\nF3" alone yields the set of F1, F2 and F3. *)
Theorem plain_text_allowlist_is_split_trimmed_deduplicated JSON_parse readFileSync :
  (∀ allowlistValue allowlistPath,
     (∀ src, is_source readFileSync allowlistValue allowlistPath src → plain_text src) →
     (∀ path, allowlistPath = Some path → ∃ contents, readFileSync path = inl contents) →
     let state := loadAllowlistState JSON_parse readFileSync allowlistValue allowlistPath in
     AllowlistState.error state = None
     ∧ NoDup (elements (AllowlistState.ids state))
     ∧ ∀ x, x ∈ AllowlistState.ids state ↔
            x ≠ ""
            ∧ ∃ src text l piece,
                is_source readFileSync allowlistValue allowlistPath src
                ∧ stripped src text ∧ pieces text l ∧ piece ∈ l ∧ stripped piece x)
  ∧ AllowlistState.ids
      (loadAllowlistState JSON_parse readFileSync
         (Some ("F1, F2" +:+ String LF "F3")) None)
    = {["F1"; "F2"; "F3"]}.
Proof.
  split; [|by vm_compute].
  intros allowlistValue allowlistPath Hplain Hread state.
  split; [|split; [apply NoDup_elements |]]; subst state; unfold loadAllowlistState.
  - destruct allowlistValue as [value|].
    + destruct (parse_plain_text JSON_parse value) as (p1 & -> & _).
      { apply Hplain. by left. }
      destruct allowlistPath as [path|]; [|done].
      destruct (Hread path eq_refl) as [contents Hc]. rewrite Hc.
      destruct (parse_plain_text JSON_parse contents) as (p2 & -> & _); [|done].
      apply Hplain. right. eauto.
    + destruct allowlistPath as [path|]; [|done].
      destruct (Hread path eq_refl) as [contents Hc]. rewrite Hc.
      destruct (parse_plain_text JSON_parse contents) as (p2 & -> & _); [|done].
      apply Hplain. right. eauto.
  - intros x. destruct allowlistValue as [value|].
    + destruct (parse_plain_text JSON_parse value) as (p1 & -> & Hp1).
      { apply Hplain. by left. }
      apply plain_piece_normalized with (x := x) in Hp1.
      destruct allowlistPath as [path|].
      * destruct (Hread path eq_refl) as [contents Hc]. rewrite Hc.
        destruct (parse_plain_text JSON_parse contents) as (p2 & -> & Hp2).
        { apply Hplain. right. eauto. }
        apply plain_piece_normalized with (x := x) in Hp2.
        cbn [AllowlistState.ids]. rewrite elem_of_normalized_ids.
        setoid_rewrite elem_of_app. unfold is_source. split.
        -- intros (Hx & y & [Hy|Hy] & ->).
           ++ destruct Hp1 as [(_ & text & l & piece & ?) _]; [by eauto |].
              split; [done |]. exists value, text, l, piece. eauto.
           ++ destruct Hp2 as [(_ & text & l & piece & ?) _]; [by eauto |].
              split; [done |]. exists contents, text, l, piece. split; [|done]. eauto.
        -- intros (Hx & src & text & l & piece & [Hsrc|(path' & Hpath & Hsrc)] & Hl).
           ++ simplify_eq. destruct Hp1 as [_ (_ & y & ? & ?)]; [by eauto 10 |]. eauto.
           ++ injection Hpath as <-. rewrite Hc in Hsrc. injection Hsrc as <-.
              destruct Hp2 as [_ (_ & y & ? & ?)]; [by eauto 10 |]. eauto.
      * cbn [AllowlistState.ids]. rewrite elem_of_normalized_ids, Hp1.
        unfold is_source. split.
        -- intros (Hx & text & l & piece & ?). split; [done |].
           exists value, text, l, piece. eauto.
        -- intros (Hx & src & text & l & piece & [Hsrc|(path' & Hpath & Hsrc)] & Hl);
             [|done]. injection Hsrc as <-. eauto 10.
    + destruct allowlistPath as [path|].
      * destruct (Hread path eq_refl) as [contents Hc]. rewrite Hc.
        destruct (parse_plain_text JSON_parse contents) as (p2 & -> & Hp2).
        { apply Hplain. right. eauto. }
        apply plain_piece_normalized with (x := x) in Hp2.
        cbn [AllowlistState.ids app]. rewrite elem_of_normalized_ids, Hp2.
        unfold is_source. split.
        -- intros (Hx & text & l & piece & ?). split; [done |].
           exists contents, text, l, piece. split; [|done]. eauto.
        -- intros (Hx & src & text & l & piece & [Hsrc|(path' & Hpath & Hsrc)] & Hl);
             [done |]. injection Hpath as <-. rewrite Hc in Hsrc.
           injection Hsrc as <-. eauto 10.
      * cbn [AllowlistState.ids]. rewrite elem_of_normalized_ids.
        unfold is_source. split.
        -- intros (_ & y & []%elem_of_nil & _).
        -- by intros (_ & src & _ & _ & _ & [?|(? & ? & _)] & _).
Qed.

(** ** Termination of the traversal *)

Lemma loop_fuel_mono drive fuel :
  ∀ fuel' queue seen st out,
    isIdWithinAllowlist_loop drive fuel queue seen st = Some out →
    (fuel ≤ fuel') →
    isIdWithinAllowlist_loop drive fuel' queue seen st = Some out.
Proof.
  induction fuel as [|fuel IH]; intros fuel' queue seen st out Hrun Hle; [done |].
  destruct fuel' as [|fuel']; [lia |]. simpl in *.
  destruct queue as [|currentId queue]; [done |].
  destruct (negb (truthy currentId) || bool_decide (currentId ∈ seen)).
  { apply IH; [done | lia]. }
  destruct (bool_decide (currentId ∈ ids (record_visit currentId st))); [done |].
  destruct (getFileNode drive currentId (record_visit currentId st)) as [st1 [node|e]];
    [|done].
  destruct (bool_decide (FileNode.id node ∈ ids st1)); [done |].
  apply IH; [done | lia].
Qed.

Lemma check_targets_fuel_mono drive fuel fuel' desc label :
  (fuel ≤ fuel') →
  ∀ targetIds st out,
    check_targets drive fuel desc label targetIds st = Some out →
    check_targets drive fuel' desc label targetIds st = Some out.
Proof.
  intros Hle. induction targetIds as [|targetId rest IH]; intros st out Hrun; [done |].
  simpl in *. unfold isIdWithinAllowlist in *.
  destruct (isIdWithinAllowlist_loop drive fuel [targetId] ∅ st) as [[st1 r]|] eqn:Hloop;
    [|done].
  rewrite (loop_fuel_mono _ _ _ _ _ _ _ Hloop Hle).
  destruct r as [[]|]; [by apply IH | done | done].
Qed.

Lemma elem_of_reported_ids drive k data :
  Drive.files drive !! k = Some data →
  FileNode.id (node_of_response k data) ∈ reported_ids drive.
Proof.
  intros Hk. unfold reported_ids. apply elem_of_list_to_set, list_elem_of_fmap.
  exists (k, data). split; [done |]. by apply elem_of_map_to_list.
Qed.

Lemma universe_covers drive st : covers drive (universe drive st) st.
Proof.
  unfold covers, universe. split; [set_solver |].
  intros k data Hk. split.
  - apply elem_of_union_l, elem_of_union_r, elem_of_dom. eauto.
  - apply elem_of_union_r. by eapply elem_of_reported_ids.
Qed.

Lemma covers_record_visit drive U st currentId :
  covers drive U st → covers drive U (record_visit currentId st).
Proof. done. Qed.

Lemma getFileNode_covers drive U fileId st st' r :
  covers drive U st →
  getFileNode drive fileId st = (st', r) →
  covers drive U st' ∧ (∀ node, r = Return node → fileId ∈ U).
Proof.
  intros [Hdom Hfiles] Hg. pose proof (getFileNode_cases drive fileId st) as Hc.
  rewrite Hg in Hc. simpl in Hc.
  inversion Hc as [cached Hhit | data st0 Hmiss Hd Ha Hr Hv Hq Hcache | e Hmiss Hd]; subst.
  - split; [done |]. intros _ _. apply Hdom, elem_of_dom. eauto.
  - unfold Drive.files_get in Hd.
    destruct (Drive.files drive !! fileId) as [data'|] eqn:Hf; [|done].
    injection Hd as ->. destruct (Hfiles _ _ Hf) as [HkU HidU].
    split; [|done]. split; [|done]. rewrite Hcache. cbv zeta.
    destruct (_ && _); rewrite !dom_insert_L; set_solver.
  - split; [done |]. by intros node.
Qed.

Lemma loop_covers drive U fuel :
  ∀ queue seen st st' r,
    covers drive U st →
    isIdWithinAllowlist_loop drive fuel queue seen st = Some (st', r) →
    covers drive U st'.
Proof.
  induction fuel as [|fuel IH]; intros queue seen st st' r Hcov Hrun; [done |].
  simpl in Hrun. destruct queue as [|currentId queue]; [by simplify_eq |].
  destruct (negb (truthy currentId) || bool_decide (currentId ∈ seen)); [by eapply IH |].
  destruct (bool_decide (currentId ∈ ids (record_visit currentId st))); [by simplify_eq |].
  destruct (getFileNode drive currentId (record_visit currentId st)) as [st1 r1] eqn:Hg.
  apply (getFileNode_covers drive U) in Hg as [Hcov1 _]; [|done].
  destruct r1 as [node|e]; [|by simplify_eq].
  destruct (bool_decide (FileNode.id node ∈ ids st1)); [by simplify_eq |].
  by eapply IH.
Qed.

Lemma loop_nil drive fuel seen st :
  isIdWithinAllowlist_loop drive (S fuel) [] seen st = Some (st, Return false).
Proof. done. Qed.

Lemma loop_cons drive fuel currentId queue seen st :
  isIdWithinAllowlist_loop drive (S fuel) (currentId :: queue) seen st
  = if negb (truthy currentId) || bool_decide (currentId ∈ seen)
    then isIdWithinAllowlist_loop drive fuel queue seen st
    else if bool_decide (currentId ∈ ids (record_visit currentId st))
    then Some (record_visit currentId st, Return true)
    else
      match getFileNode drive currentId (record_visit currentId st) with
      | (st1, Throw e) => Some (st1, Throw e)
      | (st1, Return node) =>
          if bool_decide (FileNode.id node ∈ ids st1) then Some (st1, Return true)
          else
            isIdWithinAllowlist_loop drive fuel
              (queue ++ filter (λ parentId, parentId ∉ {[currentId]} ∪ seen)
                          (FileNode.parents node))
              ({[currentId]} ∪ seen) st1
      end.
Proof. done. Qed.

Lemma size_unseen_decreases (U seen : gset string) currentId :
  currentId ∈ U → currentId ∉ seen →
  (size (U ∖ ({[currentId]} ∪ seen)) < size (U ∖ seen)).
Proof.
  intros HU Hnew. apply subset_size. split; [set_solver |].
  intros Hsub. specialize (Hsub currentId). set_solver.
Qed.

Lemma loop_terminates drive U n :
  ∀ seen, (size (U ∖ seen) < n) →
  ∀ queue st, covers drive U st →
  ∃ fuel0, ∀ fuel, fuel0 ≤ fuel →
    is_Some (isIdWithinAllowlist_loop drive fuel queue seen st).
Proof.
  induction n as [|n IHn]; intros seen Hsize; [lia |].
  induction queue as [|currentId queue IHq]; intros st Hcov.
  { exists 1. intros [|fuel] Hle; [lia |]. rewrite loop_nil. by eexists. }
  destruct (IHq st Hcov) as [fq Hfq].
  destruct (negb (truthy currentId) || bool_decide (currentId ∈ seen)) eqn:Hskip.
  { exists (S fq). intros [|fuel] Hle; [lia |]. rewrite loop_cons, Hskip.
    apply Hfq. lia. }
  destruct (bool_decide (currentId ∈ ids (record_visit currentId st))) eqn:Hin.
  { exists 1. intros [|fuel] Hle; [lia |]. rewrite loop_cons, Hskip, Hin.
    by eexists. }
  destruct (getFileNode drive currentId (record_visit currentId st))
    as [st1 [node|e]] eqn:Hg.
  - destruct (bool_decide (FileNode.id node ∈ ids st1)) eqn:Hid.
    { exists 1. intros [|fuel] Hle; [lia |].
      rewrite loop_cons, Hskip, Hin, Hg, Hid. by eexists. }
    destruct (getFileNode_covers drive U _ _ _ _ (covers_record_visit _ _ _ _ Hcov) Hg)
      as [Hcov1 HU].
    apply orb_false_iff in Hskip as Hskip'. destruct Hskip' as [_ Hnew%bool_decide_eq_false].
    assert (Hless : (size (U ∖ ({[currentId]} ∪ seen)) < n)).
    { pose proof (size_unseen_decreases U seen currentId (HU node eq_refl) Hnew). lia. }
    destruct (IHn _ Hless
                (queue ++ filter (λ parentId, parentId ∉ {[currentId]} ∪ seen)
                            (FileNode.parents node)) st1 Hcov1) as [f1 Hf1].
    exists (S f1). intros [|fuel] Hle; [lia |].
    rewrite loop_cons, Hskip, Hin, Hg, Hid. apply Hf1. lia.
  - exists 1. intros [|fuel] Hle; [lia |].
    rewrite loop_cons, Hskip, Hin, Hg. by eexists.
Qed.

Lemma isIdWithinAllowlist_terminates drive fileId st :
  ∃ fuel0, ∀ fuel, fuel0 ≤ fuel →
    is_Some (isIdWithinAllowlist drive fuel fileId st).
Proof.
  eapply (loop_terminates drive (universe drive st)); [apply Nat.lt_succ_diag_r |].
  apply universe_covers.
Qed.

Lemma check_targets_terminates drive U desc label :
  ∀ targetIds st, covers drive U st →
  ∃ fuel0, ∀ fuel, fuel0 ≤ fuel →
    is_Some (check_targets drive fuel desc label targetIds st).
Proof.
  induction targetIds as [|targetId rest IH]; intros st Hcov.
  { exists 0. intros fuel _. by eexists. }
  destruct (loop_terminates drive U _ ∅ (Nat.lt_succ_diag_r _) [targetId] st Hcov)
    as [f1 Hf1].
  destruct (Hf1 f1 (Nat.le_refl _)) as [[st1 r] Hloop].
  assert (Hcov1 := loop_covers _ _ _ _ _ _ _ _ Hcov Hloop).
  destruct (IH st1 Hcov1) as [f2 Hf2].
  exists (f1 `max` f2). intros fuel Hle. simpl. unfold isIdWithinAllowlist.
  rewrite (loop_fuel_mono _ _ fuel _ _ _ _ Hloop) by lia.
  destruct r as [[]|e]; [apply Hf2; lia | by eexists | by eexists].
Qed.

Lemma ensureRootResolved_covers drive U st st' r :
  covers drive U st → ensureRootResolved drive st = (st', r) → covers drive U st'.
Proof.
  intros Hcov. unfold ensureRootResolved.
  destruct (rootResolved st || negb (bool_decide ("root" ∈ ids st))); [by intros [= <- <-] |].
  destruct (getFileNode drive "root" st) as [st1 r1] eqn:Hg.
  apply (getFileNode_covers drive U) in Hg as [Hcov1 _]; [|done].
  destruct r1 as [rootNode|e]; intros [= <- <-]; [|done].
  by destruct (_ && _).
Qed.

Lemma run_assertion_terminates drive call desc st :
  ∃ fuel0, ∀ fuel, fuel0 ≤ fuel →
    is_Some (run_assertion drive fuel call desc st).
Proof.
  setoid_rewrite run_assertion_internal. unfold assertWriteAccessInternal.
  destruct (negb (enabled st)); [by exists 0; eexists |].
  destruct (truthy (default "" (error st))); [by exists 0; eexists |].
  destruct (bool_decide (size (ids st) = 0)); [by exists 0; eexists |].
  destruct (ensureRootResolved drive st) as [st1 [[]|e]] eqn:Hroot;
    [|by exists 0; eexists].
  eapply check_targets_terminates, ensureRootResolved_covers; [|done].
  apply universe_covers.
Qed.

(** ** Each ID is visited once *)

Lemma getFileNode_visits drive fileId st st' r :
  getFileNode drive fileId st = (st', r) → visits st' = visits st.
Proof.
  intros Hg. pose proof (getFileNode_cases drive fileId st) as Hc.
  rewrite Hg in Hc. simpl in Hc.
  by inversion Hc as [cached Hhit | data st0 Hmiss Hd Ha Hr Hv Hq Hcache | e Hmiss Hd];
    subst.
Qed.

Lemma loop_visits drive fuel :
  ∀ queue seen st st' r,
    isIdWithinAllowlist_loop drive fuel queue seen st = Some (st', r) →
    ∃ new, visited st st' new ∧ NoDup new ∧ ∀ k, k ∈ new → k ∉ seen.
Proof.
  unfold visited.
  induction fuel as [|fuel IH]; intros queue seen st st' r Hrun; [done |].
  destruct queue as [|currentId queue].
  { rewrite loop_nil in Hrun. simplify_eq. exists []. rewrite app_nil_r.
    split_and!; [done | constructor | by intros k ?%elem_of_nil]. }
  rewrite loop_cons in Hrun.
  destruct (negb (truthy currentId) || bool_decide (currentId ∈ seen)) eqn:Hskip;
    [by eapply IH |].
  apply orb_false_iff in Hskip as [_ Hnew%bool_decide_eq_false].
  assert (Hone : ∀ k, k ∈ [currentId] → k ∉ seen)
    by (by intros k ->%list_elem_of_singleton).
  destruct (bool_decide (currentId ∈ ids (record_visit currentId st))).
  { simplify_eq. exists [currentId]. split_and!; [done | apply NoDup_singleton | done]. }
  destruct (getFileNode drive currentId (record_visit currentId st)) as [st1 r1] eqn:Hg.
  apply getFileNode_visits in Hg as Hv. destruct r1 as [node|e].
  - simpl in Hv. destruct (bool_decide (FileNode.id node ∈ ids st1)).
    { simplify_eq. exists [currentId]. split_and!; [done | apply NoDup_singleton | done]. }
    apply IH in Hrun as (new & Hvis & Hnd & Hout).
    exists (currentId :: new). split_and!.
    + rewrite Hvis, Hv. simpl. by rewrite <- app_assoc.
    + constructor; [|done]. intros Hin. apply Hout in Hin. set_solver.
    + intros k [->|Hin]%elem_of_cons; [done |]. apply Hout in Hin. set_solver.
  - simpl in Hv. simplify_eq. exists [currentId].
    split_and!; [done | apply NoDup_singleton | done].
Qed.

(** ** The traversal on a coherent cache *)

Lemma fetch_inl drive k n :
  fetch drive k = inl n →
  ∃ data, Drive.files_get drive k = inl data ∧ n = node_of_response k data.
Proof.
  unfold fetch. destruct (Drive.files_get drive k) as [data|e]; [|done].
  intros [= <-]. eauto.
Qed.

Lemma fetch_inr drive k err :
  fetch drive k = inr err →
  ∃ e, Drive.files_get drive k = inr e ∧ err = lookup_error k e.
Proof.
  unfold fetch. destruct (Drive.files_get drive k) as [data|e]; [done |].
  intros [= <-]. eauto.
Qed.

Lemma coherent_insert drive st st' k n (b : bool) :
  alias_consistent drive →
  coherent drive st →
  fetch drive k = inl n →
  parentCache st'
  = (if b then <[FileNode.id n := n]> (<[k := n]> (parentCache st))
     else <[k := n]> (parentCache st)) →
  coherent drive st'.
Proof.
  intros Halias Hcoh Hk Hcache key node. rewrite Hcache.
  destruct b.
  - rewrite lookup_insert. case_decide as Hid.
    { intros [= <-]. subst key. by apply Halias in Hk. }
    rewrite lookup_insert. case_decide as Hkey.
    { intros [= <-]. by subst key. }
    apply Hcoh.
  - rewrite lookup_insert. case_decide as Hkey.
    { intros [= <-]. by subst key. }
    apply Hcoh.
Qed.

(** On a coherent cache [getFileNode] answers as [fetch] does, and keeps the
    cache coherent. *)
Lemma getFileNode_coherent drive fileId st st' r :
  alias_consistent drive →
  coherent drive st →
  getFileNode drive fileId st = (st', r) →
  r = match fetch drive fileId with inl n => Return n | inr e => Throw e end
  ∧ coherent drive st'
  ∧ allowlistState st' = allowlistState st
  ∧ rootResolved st' = rootResolved st.
Proof.
  intros Halias Hcoh Hg. pose proof (getFileNode_cases drive fileId st) as Hc.
  rewrite Hg in Hc. simpl in Hc.
  inversion Hc as [cached Hhit | data st0 Hmiss Hd Ha Hr Hv Hq Hcache | e Hmiss Hd]; subst.
  - by rewrite (Hcoh _ _ Hhit).
  - assert (Hf : fetch drive fileId = inl (node_of_response fileId data))
      by (unfold fetch; by rewrite Hd).
    rewrite Hf. split_and!; [done | | done | done].
    by eapply coherent_insert.
  - unfold fetch. by rewrite Hd.
Qed.

Lemma loop_search drive fuel :
  alias_consistent drive →
  ∀ queue seen st,
    coherent drive st →
    match isIdWithinAllowlist_loop drive fuel queue seen st with
    | Some (st', r) =>
        search drive (ids st) fuel queue seen = Some r
        ∧ coherent drive st'
        ∧ allowlistState st' = allowlistState st
        ∧ rootResolved st' = rootResolved st
    | None => search drive (ids st) fuel queue seen = None
    end.
Proof.
  intros Halias. induction fuel as [|fuel IH]; intros queue seen st Hcoh; [done |].
  destruct queue as [|currentId queue]; [done |].
  rewrite loop_cons. simpl.
  destruct (negb (truthy currentId) || bool_decide (currentId ∈ seen)); [by apply IH |].
  change (ids (record_visit currentId st)) with (ids st).
  destruct (bool_decide (currentId ∈ ids st)); [done |].
  destruct (getFileNode drive currentId (record_visit currentId st)) as [st1 r1] eqn:Hg.
  apply getFileNode_coherent in Hg as (-> & Hcoh1 & Ha & Hr); [|done|done].
  assert (Hids : ids st1 = ids st) by (unfold ids; by rewrite Ha).
  destruct (fetch drive currentId) as [node|e]; [|done].
  rewrite Hids. destruct (bool_decide (FileNode.id node ∈ ids st)); [done |].
  specialize (IH (queue ++ filter (λ parentId, parentId ∉ {[currentId]} ∪ seen)
                             (FileNode.parents node)) ({[currentId]} ∪ seen) st1 Hcoh1).
  rewrite Hids in IH.
  destruct (isIdWithinAllowlist_loop drive fuel _ _ st1) as [[st' r]|]; [|done].
  destruct IH as (? & ? & -> & ->). by rewrite Ha, Hr.
Qed.

(** ** What the search decides *)

Lemma search_cons drive L fuel currentId queue seen :
  search drive L (S fuel) (currentId :: queue) seen
  = if negb (truthy currentId) || bool_decide (currentId ∈ seen)
    then search drive L fuel queue seen
    else if bool_decide (currentId ∈ L) then Some (Return true)
    else
      match fetch drive currentId with
      | inr e => Some (Throw e)
      | inl node =>
          if bool_decide (FileNode.id node ∈ L) then Some (Return true)
          else
            search drive L fuel
              (queue ++ filter (λ parentId, parentId ∉ {[currentId]} ∪ seen)
                          (FileNode.parents node))
              ({[currentId]} ∪ seen)
      end.
Proof. done. Qed.

Lemma search_sound drive L fuel :
  ∀ queue seen,
    search drive L fuel queue seen = Some (Return true) →
    ∃ x, x ∈ queue ∧ within drive L x.
Proof.
  induction fuel as [|fuel IH]; intros queue seen Hrun; [done |].
  destruct queue as [|currentId queue]; [done |].
  rewrite search_cons in Hrun.
  destruct (negb (truthy currentId) || bool_decide (currentId ∈ seen)) eqn:Hskip.
  { apply IH in Hrun as (x & Hx & Hw). exists x. split; [by right | done]. }
  apply orb_false_iff in Hskip as [Hne%negb_false_iff%truthy_nonempty _].
  case_bool_decide as HL.
  { exists currentId. split; [by left |]. exists currentId. split; [done |].
    split; [done | by left]. }
  destruct (fetch drive currentId) as [node|e] eqn:Hf; [|done].
  case_bool_decide as Hid.
  { exists currentId. split; [by left |]. exists currentId. split; [done |].
    split; [done |]. right. eauto. }
  apply IH in Hrun as (x & Hx & a & Hreach & Ha).
  apply elem_of_app in Hx as [Hx|Hx].
  - exists x. split; [by right |]. by exists a.
  - apply list_elem_of_filter in Hx as [_ Hx].
    exists currentId. split; [by left |]. exists a. split; [|done].
    eapply rtc_l; [|done]. split; [done |]. eauto.
Qed.

Lemma closed_outside_not_within drive L S target :
  closed_outside drive L S →
  target = "" ∨ target ∈ S →
  ¬ within drive L target.
Proof.
  intros Hclosed Hin (a & Hreach & Ha).
  induction Hreach as [x | x y z Hstep _ IH].
  - destruct Hin as [->|Hin]; [by destruct Ha |]. by apply (Hclosed x Hin).
  - destruct Hin as [->|Hin]; [by destruct Hstep |].
    apply IH; [|done]. by apply (Hclosed x Hin).
Qed.

Lemma search_complete drive L fuel :
  ∀ queue seen,
    search drive L fuel queue seen = Some (Return false) →
    (∀ x, x ∈ seen →
       ¬ allowlisted drive L x
       ∧ ∀ p, parent_of drive x p → p = "" ∨ p ∈ seen ∨ p ∈ queue) →
    ∃ S, seen ⊆ S
         ∧ (∀ x, x ∈ queue → x = "" ∨ x ∈ S)
         ∧ closed_outside drive L S.
Proof.
  induction fuel as [|fuel IH]; intros queue seen Hrun Hinv; [done |].
  destruct queue as [|currentId queue].
  { exists seen. split_and!; [done | by intros x ?%elem_of_nil |].
    intros x Hx. destruct (Hinv x Hx) as [Hno Hp]. split; [done |].
    intros p Hstep. destruct (Hp p Hstep) as [?|[?|?%elem_of_nil]]; by eauto. }
  rewrite search_cons in Hrun.
  destruct (negb (truthy currentId) || bool_decide (currentId ∈ seen)) eqn:Hskip.
  { apply IH in Hrun as (S & Hsub & Hq & Hclosed).
    - exists S. split_and!; [done | | done].
      intros x [->|Hx]%elem_of_cons; [|by apply Hq].
      apply orb_true_iff in Hskip as [Hempty|Hseen%bool_decide_eq_true].
      + left. by destruct currentId.
      + right. by apply Hsub.
    - intros x Hx. destruct (Hinv x Hx) as [Hno Hp]. split; [done |].
      intros p Hstep. destruct (Hp p Hstep) as [?|[?|[->|?]%elem_of_cons]]; eauto.
      apply orb_true_iff in Hskip as [Hempty|Hseen%bool_decide_eq_true].
      + left. by destruct currentId.
      + by eauto. }
  apply orb_false_iff in Hskip as [Hne%negb_false_iff%truthy_nonempty _].
  case_bool_decide as HL; [done |].
  destruct (fetch drive currentId) as [node|e] eqn:Hf; [|done].
  case_bool_decide as Hid; [done |].
  apply IH in Hrun as (S & Hsub & Hq & Hclosed).
  - exists S. split_and!; [set_solver | | done].
    intros x [->|Hx]%elem_of_cons; [right; set_solver |].
    apply Hq, elem_of_app. by left.
  - intros x [->%elem_of_singleton|Hx]%elem_of_union.
    + split.
      * intros (_ & [?|(n & Hn & ?)]); [done |]. rewrite Hf in Hn. by simplify_eq.
      * intros p (_ & n & Hn & Hp). rewrite Hf in Hn. simplify_eq.
        destruct (decide (p ∈ ({[currentId]} ∪ seen : gset string))) as [?|Hout];
          [by eauto |].
        right. right. apply elem_of_app. right. by apply list_elem_of_filter.
    + destruct (Hinv x Hx) as [Hno Hp]. split; [done |].
      intros p Hstep. destruct (Hp p Hstep) as [?|[?|[->|?]%elem_of_cons]].
      * by left.
      * right. left. set_solver.
      * right. left. set_solver.
      * right. right. apply elem_of_app. by left.
Qed.

Lemma search_throws drive L fuel :
  ∀ queue seen e,
    search drive L fuel queue seen = Some (Throw e) →
    ∃ k err, Drive.files_get drive k = inr err ∧ e = lookup_error k err.
Proof.
  induction fuel as [|fuel IH]; intros queue seen e Hrun; [done |].
  destruct queue as [|currentId queue]; [done |].
  rewrite search_cons in Hrun.
  destruct (negb (truthy currentId) || bool_decide (currentId ∈ seen)); [by eapply IH |].
  case_bool_decide; [done |].
  destruct (fetch drive currentId) as [node|err] eqn:Hf.
  - case_bool_decide; [done | by eapply IH].
  - simplify_eq. apply fetch_inr in Hf as (e' & ? & ?). eauto.
Qed.

Lemma search_decides drive L fuel target r :
  search drive L fuel [target] ∅ = Some r →
  match r with
  | Return true => within drive L target
  | Return false => ¬ within drive L target
  | Throw e => ∃ k err, Drive.files_get drive k = inr err ∧ e = lookup_error k err
  end.
Proof.
  intros Hrun. destruct r as [[]|e].
  - apply search_sound in Hrun as (x & ->%list_elem_of_singleton & Hw). done.
  - apply search_complete in Hrun as (S & _ & Hq & Hclosed); [|set_solver].
    eapply closed_outside_not_within; [done |]. apply Hq. by left.
  - by eapply search_throws.
Qed.

(** ** Root normalisation *)

Lemma node_id_nonempty fileId data :
  fileId ≠ "" → FileNode.id (node_of_response fileId data) ≠ "".
Proof.
  intros Hne. unfold node_of_response, or_else. simpl.
  destruct (Drive.id data) as [[|c s]|]; done.
Qed.

Lemma fetch_id_nonempty drive k n :
  k ≠ "" → fetch drive k = inl n → FileNode.id n ≠ "".
Proof.
  intros Hne (data & _ & ->)%fetch_inl. by apply node_id_nonempty.
Qed.

Lemma getFileNode_result drive fileId st st' r :
  coherent drive st →
  getFileNode drive fileId st = (st', r) →
  r = match fetch drive fileId with inl n => Return n | inr e => Throw e end.
Proof.
  intros Hcoh Hg. pose proof (getFileNode_cases drive fileId st) as Hc.
  rewrite Hg in Hc. simpl in Hc.
  inversion Hc as [cached Hhit | data st0 Hmiss Hd Ha Hr Hv Hq Hcache | e Hmiss Hd]; subst.
  - by rewrite (Hcoh _ _ Hhit).
  - unfold fetch. by rewrite Hd.
  - unfold fetch. by rewrite Hd.
Qed.

(** The three ways [ensureRootResolved] can go on a coherent cache. *)
Lemma ensureRootResolved_cases drive st st' r :
  coherent drive st →
  ensureRootResolved drive st = (st', r) →
  ((rootResolved st = true ∨ "root" ∉ ids st) ∧ st' = st ∧ r = Return ())
  ∨ (rootResolved st = false ∧ "root" ∈ ids st
     ∧ ∃ n, fetch drive "root" = inl n
            ∧ r = Return ()
            ∧ rootResolved st' = true
            ∧ FileNode.id n ∈ ids st'
            ∧ ids st' = {[FileNode.id n]} ∪ ids st)
  ∨ (rootResolved st = false ∧ "root" ∈ ids st
     ∧ ∃ e, Drive.files_get drive "root" = inr e
            ∧ r = Throw (lookup_error "root" e)
            ∧ st' = record_request "root" st
            ∧ parentCache st !! "root" = None).
Proof.
  intros Hcoh. unfold ensureRootResolved.
  destruct (rootResolved st) eqn:Hres; simpl.
  { intros [= <- <-]. left. by eauto. }
  case_bool_decide as Hroot; simpl; [|intros [= <- <-]; left; by eauto].
  destruct (getFileNode drive "root" st) as [st1 r1] eqn:Hg.
  pose proof (getFileNode_result _ _ _ _ _ Hcoh Hg) as Hr1.
  pose proof (getFileNode_cases drive "root" st) as Hc.
  rewrite Hg in Hc. simpl in Hc.
  destruct (fetch drive "root") as [n|e] eqn:Hf; subst r1.
  - assert (Hne : truthy (FileNode.id n) = true).
    { apply truthy_nonempty. by apply (fetch_id_nonempty drive "root"). }
    assert (Hids1 : ids st1 = ids st).
    { inversion Hc; subst; [done |]. unfold ids. congruence. }
    rewrite Hne. simpl. intros [= <- <-]. right. left. split_and!; [done | done |].
    exists n. unfold ids in *.
    case_bool_decide as Heq; simpl; split_and!; try done.
    + rewrite Hids1, Heq. done.
    + rewrite Hids1, Heq. set_solver.
    + set_solver.
    + by rewrite Hids1.
  - intros [= <- <-]. right. right. split_and!; [done | done |].
    apply fetch_inr in Hf as (e' & Hd & ->). exists e'.
    inversion Hc as [| |e'' Hmiss Hd']; subst. rewrite Hd in Hd'. by simplify_eq.
Qed.

Lemma loop_allowlisted_target drive fuel target st :
  target ≠ "" → target ∈ ids st →
  isIdWithinAllowlist drive (S fuel) target st = Some (record_visit target st, Return true).
Proof.
  intros Hne Hin. unfold isIdWithinAllowlist. rewrite loop_cons.
  apply truthy_nonempty in Hne. rewrite Hne. simpl.
  rewrite bool_decide_eq_false_2 by set_solver.
  by rewrite bool_decide_eq_true_2.
Qed.

Lemma gates_open drive fuel targetIds desc label st x :
  enabled st = true → error st = None → x ∈ ids st →
  assertWriteAccessInternal drive fuel targetIds desc label st
  = match ensureRootResolved drive st with
    | (st1, Throw e) => Some (st1, Throw e)
    | (st1, Return _) => check_targets drive fuel desc label targetIds st1
    end.
Proof.
  intros Hon He Hx. unfold assertWriteAccessInternal. rewrite Hon, He.
  cbn [negb default truthy].
  rewrite bool_decide_eq_false_2; [done |].
  intros Hsize%size_empty_iff. set_solver.
Qed.

Lemma check_allowlisted_target drive fuel desc label target st :
  target ≠ "" → target ∈ ids st →
  check_targets drive (S fuel) desc label [target] st
  = Some (record_visit target st, Return ()).
Proof.
  intros Hne Hin. cbn [check_targets].
  by rewrite loop_allowlisted_target.
Qed.

(** C6. In a running process whose allowlist is enabled, free of
    configuration errors and holds "root", and whose store answers the alias
    "root" with a node of ID C: asserting the absent parent returns normally,
    asserting the file C returns normally, and the first root normalisation
    returns with C added to the ID set. *)
Theorem root_alias_and_root_id_are_both_accepted drive st rootNode desc fuel :
  coherent drive st →
  root_normalized drive st →
  enabled st = true →
  error st = None →
  "root" ∈ ids st →
  fetch drive "root" = inl rootNode →
  (0 < fuel) →
  (∃ st', assertWriteAccessForParent drive fuel None desc st = Some (st', Return ()))
  ∧ (∃ st', assertWriteAccessForFile drive fuel (FileNode.id rootNode) desc st
            = Some (st', Return ())
            ∧ FileNode.id rootNode ∈ ids st')
  ∧ (rootResolved st = false →
     ∃ st', ensureRootResolved drive st = (st', Return ())
            ∧ rootResolved st' = true
            ∧ ids st' = {[FileNode.id rootNode]} ∪ ids st).
Proof.
  intros Hcoh Hnorm Hon He Hroot Hf Hfuel.
  destruct fuel as [|fuel]; [lia |].
  assert (Hid : FileNode.id rootNode ≠ "") by by apply (fetch_id_nonempty drive "root").
  unfold assertWriteAccessForParent, assertWriteAccessForFile.
  rewrite !(gates_open _ _ _ _ _ _ "root") by done.
  destruct (ensureRootResolved drive st) as [st1 r] eqn:Hres.
  destruct (ensureRootResolved_cases _ _ _ _ Hcoh Hres)
    as [([Hdone|Hout] & -> & ->)
       |[(Hfirst & _ & n & Hn & -> & Hres1 & Hin & Hids)
        |(_ & _ & e & Hd & _)]].
  - split_and!.
    + rewrite check_allowlisted_target by done. by eexists.
    + rewrite check_allowlisted_target by eauto. eexists. split; [done |].
      by apply Hnorm.
    + by rewrite Hdone.
  - done.
  - rewrite Hf in Hn. injection Hn as <-. split_and!.
    + rewrite check_allowlisted_target; [by eexists | done |]. rewrite Hids. set_solver.
    + rewrite check_allowlisted_target by done. by eexists.
    + intros _. by exists st1.
  - unfold fetch in Hf. by rewrite Hd in Hf.
Qed.

(** ** The invariant of a running process *)

Lemma initial_state_inv drive config : state_inv drive (initial config).
Proof. split; [|done]. intros k n Hk. simpl in Hk. by rewrite lookup_empty in Hk. Qed.

Lemma check_targets_coherent drive fuel desc label :
  alias_consistent drive →
  ∀ targetIds st st' r,
    coherent drive st →
    check_targets drive fuel desc label targetIds st = Some (st', r) →
    coherent drive st'
    ∧ allowlistState st' = allowlistState st
    ∧ rootResolved st' = rootResolved st.
Proof.
  intros Halias. induction targetIds as [|targetId rest IH]; intros st st' r Hcoh Hrun.
  { by simplify_eq/=. }
  cbn [check_targets] in Hrun. unfold isIdWithinAllowlist in Hrun.
  pose proof (loop_search drive fuel Halias [targetId] ∅ st Hcoh) as Hloop.
  destruct (isIdWithinAllowlist_loop drive fuel [targetId] ∅ st) as [[st1 r1]|]; [|done].
  destruct Hloop as (_ & Hcoh1 & Ha & Hr).
  destruct r1 as [[]|e]; [|by simplify_eq..].
  apply IH in Hrun as (? & -> & ->); done.
Qed.

Lemma ensureRootResolved_coherent drive st st' r :
  alias_consistent drive →
  coherent drive st →
  ensureRootResolved drive st = (st', r) →
  coherent drive st'.
Proof.
  intros Halias Hcoh. unfold ensureRootResolved.
  destruct (_ || _); [by intros [= <- <-] |].
  destruct (getFileNode drive "root" st) as [st1 r1] eqn:Hg.
  apply getFileNode_coherent in Hg as (_ & Hcoh1 & _); [|done..].
  destruct r1; intros [= <- <-]; [|done]. by destruct (_ && _).
Qed.

Lemma ensureRootResolved_state_inv drive st st' r :
  alias_consistent drive →
  state_inv drive st →
  ensureRootResolved drive st = (st', r) →
  state_inv drive st'.
Proof.
  intros Halias [Hcoh Hnorm] Hres.
  destruct (ensureRootResolved_cases _ _ _ _ Hcoh Hres)
    as [(_ & -> & _)
       |[(_ & _ & n & Hn & _ & _ & Hin & _)
        |(Hfirst & _ & _ & _ & _ & -> & _)]]; [done | | done].
  split.
  - by eapply ensureRootResolved_coherent.
  - intros _ _ n' Hn'. rewrite Hn in Hn'. by simplify_eq.
Qed.

Lemma run_assertion_state_inv drive fuel call desc st st' r :
  alias_consistent drive →
  state_inv drive st →
  run_assertion drive fuel call desc st = Some (st', r) →
  state_inv drive st'.
Proof.
  intros Halias Hinv. rewrite run_assertion_internal. unfold assertWriteAccessInternal.
  destruct (negb (enabled st)); [by intros [= <- <-] |].
  destruct (truthy (default "" (error st))); [by intros [= <- <-] |].
  destruct (bool_decide (size (ids st) = 0)); [by intros [= <- <-] |].
  destruct (ensureRootResolved drive st) as [st1 r1] eqn:Hres.
  apply ensureRootResolved_state_inv in Hres as [Hcoh1 Hnorm1]; [|done..].
  destruct r1 as [[]|e]; [|by intros [= <- <-]].
  intros Hrun. apply check_targets_coherent in Hrun as (Hcoh' & Ha & Hr); [|done..].
  split; [done |]. unfold root_normalized, ids in *. by rewrite Ha, Hr.
Qed.

(** ** What an assertion on a file decides *)

Lemma alias_consistentb_spec drive :
  alias_consistentb drive = true → alias_consistent drive.
Proof.
  intros Hb%bool_decide_eq_true k n (data & Hd & ->)%fetch_inl.
  unfold Drive.files_get in Hd.
  destruct (Drive.files drive !! k) as [data'|] eqn:Hk; [|done].
  injection Hd as ->. by apply (Hb k data).
Qed.

(** C1, as the code has it. In a running process with the allowlist enabled,
    free of configuration errors and not empty, and a store that answers an ID
    and the ID it reports for it alike, the assertion on a file ends, given
    enough fuel; and unless it ends with the error of a failed lookup, it
    returns normally exactly when the target or one of its ancestors is a
    non-empty ID that is in the ID set, or whose reported ID is, the ID set
    being the one the call leaves, root ID included. *)
Theorem file_assertion_accepts_iff_within_allowlist drive st fileId desc :
  alias_consistent drive →
  coherent drive st →
  enabled st = true →
  error st = None →
  ids st ≠ ∅ →
  ∃ fuel0, ∀ fuel, fuel0 ≤ fuel →
    ∃ st' r,
      assertWriteAccessForFile drive fuel fileId desc st = Some (st', r)
      ∧ ((∀ k e, Drive.files_get drive k = inr e → r ≠ Throw (lookup_error k e)) →
         (r = Return () ↔ within drive (ids st') fileId)).
Proof.
  intros Halias Hcoh Hon He [x Hx]%set_choose_L.
  unfold assertWriteAccessForFile. setoid_rewrite (gates_open _ _ _ _ _ _ x); [|done..].
  destruct (ensureRootResolved drive st) as [st1 r0] eqn:Hres.
  pose proof (ensureRootResolved_coherent _ _ _ _ Halias Hcoh Hres) as Hcoh1.
  destruct r0 as [[]|e0].
  - destruct (check_targets_terminates drive _ desc file [fileId] st1
                (universe_covers drive st1)) as [fuel0 Hfuel0].
    exists fuel0. intros fuel Hle. destruct (Hfuel0 fuel Hle) as [[st' r] Hrun].
    exists st', r. split; [done |]. intros Hok.
    cbn [check_targets] in Hrun. unfold isIdWithinAllowlist in Hrun.
    pose proof (loop_search drive fuel Halias [fileId] ∅ st1 Hcoh1) as Hloop.
    destruct (isIdWithinAllowlist_loop drive fuel [fileId] ∅ st1) as [[st2 r2]|];
      [|done].
    destruct Hloop as (Hsearch%search_decides & _ & Ha & _).
    assert (Hids : ids st2 = ids st1) by (unfold ids; by rewrite Ha).
    destruct r2 as [[]|e2]; simplify_eq.
    + by rewrite Hids.
    + rewrite Hids. by split.
    + destruct Hsearch as (k & err & Hk & ->). by destruct (Hok k err Hk).
  - exists 0. intros fuel _. exists st1, (Throw e0). split; [done |]. intros Hok.
    destruct (ensureRootResolved_cases _ _ _ _ Hcoh Hres)
      as [(_ & _ & ?)|[(_ & _ & n & _ & ? & _)|(_ & _ & e & Hd & He0 & _)]]; [done.. |].
    by destruct (Hok "root" e Hd).
Qed.

(** C1 as stated fails where the store reports an ID other than the one
    asked for: with the allowlist holding R only, the assertion on "root"
    returns normally after one successful lookup, although "root" is not in
    the allowlist and has no parent. *)
Lemma alias_target_accepted_without_parent_chain :
  (λ out, (ids out.1, requests out.1, out.2))
    <$> assertWriteAccessForFile root_drive 2 "root" "update" (initial (allowing {["R"]}))
  = Some ({["R"]}, ["root"], Return ())
  ∧ ¬ within_as_specified root_drive {["R"]} "root".
Proof.
  split; [by vm_compute |].
  intros (a & Ha & Hreach). apply elem_of_singleton in Ha as ->.
  inversion Hreach as [|x y z (n & Hn & Hp) _]; subst.
  vm_compute in Hn. injection Hn as <-. by apply elem_of_nil in Hp.
Qed.

(** ** Running the same assertion again *)









Lemma ensureRootResolved_done drive st :
  rootResolved st = true ∨ "root" ∉ ids st →
  ensureRootResolved drive st = (st, Return ()).
Proof.
  intros Hdone. unfold ensureRootResolved.
  destruct Hdone as [->|Hout]; [done |].
  rewrite (bool_decide_eq_false_2 _ Hout). by rewrite orb_true_r.
Qed.




(** ** A cycle of two folders *)

Lemma search_throws_reachable drive L fuel :
  ∀ queue seen e,
    search drive L fuel queue seen = Some (Throw e) →
    ∃ x k err,
      x ∈ queue ∧ rtc (parent_of drive) x k
      ∧ Drive.files_get drive k = inr err ∧ e = lookup_error k err.
Proof.
  induction fuel as [|fuel IH]; intros queue seen e Hrun; [done |].
  destruct queue as [|currentId queue]; [done |].
  rewrite search_cons in Hrun.
  destruct (negb (truthy currentId) || bool_decide (currentId ∈ seen)) eqn:Hskip.
  { apply IH in Hrun as (x & k & err & Hx & ?). exists x, k, err. split; [by right | done]. }
  apply orb_false_iff in Hskip as [Hne%negb_false_iff%truthy_nonempty _].
  case_bool_decide; [done |].
  destruct (fetch drive currentId) as [node|err] eqn:Hf.
  - case_bool_decide; [done |].
    apply IH in Hrun as (x & k & err & Hx & Hreach & Hk).
    apply elem_of_app in Hx as [Hx|Hx].
    + exists x, k, err. split; [by right | done].
    + apply list_elem_of_filter in Hx as [_ Hx].
      exists currentId, k, err. split; [by left |]. split; [|done].
      eapply rtc_l; [|done]. split; [done |]. eauto.
  - simplify_eq. apply fetch_inr in Hf as (e' & ? & ?).
    exists currentId, currentId, e'. split; [by left | done].
Qed.

Lemma or_else_same s : or_else (Some s) s = s.
Proof. by destruct s. Qed.

Lemma cycle_drive_fetch A B failure x :
  x = A ∨ x = B →
  ∃ p, fetch (cycle_drive A B failure) x = inl (FileNode.mk x [p]) ∧ (p = A ∨ p = B).
Proof.
  intros Hx. unfold fetch, Drive.files_get, cycle_drive. cbn [Drive.files].
  destruct (decide (x = A)) as [->|Hne].
  - rewrite lookup_insert_eq. exists B. split; [|by right].
    unfold node_of_response. cbn [Drive.id Drive.parents default].
    by rewrite or_else_same.
  - destruct Hx as [->| ->]; [done |].
    rewrite lookup_insert_ne by done. rewrite lookup_singleton_eq.
    exists A. split; [|by left].
    unfold node_of_response. cbn [Drive.id Drive.parents default].
    by rewrite or_else_same.
Qed.

Lemma cycle_drive_alias_consistent A B failure :
  alias_consistent (cycle_drive A B failure).
Proof.
  intros k n Hk.
  assert (Hin : k = A ∨ k = B).
  { apply fetch_inl in Hk as (data & Hd & _). revert Hd.
    unfold Drive.files_get, cycle_drive. cbn [Drive.files].
    destruct (decide (k = A)) as [->|]; [by left |].
    rewrite lookup_insert_ne by done.
    destruct (decide (k = B)) as [->|]; [by right |].
    by rewrite lookup_singleton_ne. }
  destruct (cycle_drive_fetch A B failure k Hin) as (p & Hp & _).
  rewrite Hp in Hk. by simplify_eq.
Qed.

Lemma cycle_drive_reachable A B failure x k :
  x = A ∨ x = B →
  rtc (parent_of (cycle_drive A B failure)) x k →
  k = A ∨ k = B.
Proof.
  intros Hx Hreach. induction Hreach as [x | x y z (_ & n & Hn & Hy) _ IH]; [done |].
  apply IH. destruct (cycle_drive_fetch A B failure x Hx) as (p & Hp & Hin).
  rewrite Hp in Hn. simplify_eq. by apply list_elem_of_singleton in Hy as ->.
Qed.

Lemma cycle_drive_not_within A B failure L :
  A ∉ L → B ∉ L → ¬ within (cycle_drive A B failure) L A.
Proof.
  intros HA HB (a & Hreach & _ & Ha).
  apply cycle_drive_reachable in Hreach as Hin; [|by left].
  destruct (cycle_drive_fetch A B failure a Hin) as (p & Hp & _).
  destruct Ha as [Ha|(n & Hn & Ha)].
  - by destruct Hin as [-> | ->].
  - rewrite Hp in Hn. simplify_eq. simpl in Ha. by destruct Hin as [-> | ->].
Qed.

(** C5. The traversal ends on every store and from every state, with enough
    fuel, and marks no ID as seen twice; so does every assertion. On a store
    whose only files A and B are each other's parent, with the allowlist
    enabled and holding neither, the assertion on A in a fresh process ends
    with a rejection; with a non-empty allowlist free of configuration errors
    and of "root", the rejection is the allowlist violation for A. *)
Theorem traversal_terminates_and_rejects_unlisted_cycle :
  (∀ drive fileId st,
     ∃ fuel0, ∀ fuel, fuel0 ≤ fuel →
       ∃ st' r new,
         isIdWithinAllowlist drive fuel fileId st = Some (st', r)
         ∧ visited st st' new ∧ NoDup new)
  ∧ (∀ drive call desc st,
       ∃ fuel0, ∀ fuel, fuel0 ≤ fuel →
         is_Some (run_assertion drive fuel call desc st))
  ∧ (∀ A B failure config desc,
       AllowlistState.enabled config = true →
       A ∉ AllowlistState.ids config →
       B ∉ AllowlistState.ids config →
       ∃ fuel0, ∀ fuel, fuel0 ≤ fuel →
         ∃ st' e,
           assertWriteAccessForFile (cycle_drive A B failure) fuel A desc (initial config)
           = Some (st', Throw e)
           ∧ (AllowlistState.error config = None →
              AllowlistState.ids config ≠ ∅ →
              "root" ∉ AllowlistState.ids config →
              e = WriteBlocked desc file A)).
Proof.
  split_and!.
  - intros drive fileId st.
    destruct (isIdWithinAllowlist_terminates drive fileId st) as [fuel0 Hfuel0].
    exists fuel0. intros fuel Hle. destruct (Hfuel0 fuel Hle) as [[st' r] Hrun].
    destruct (loop_visits _ _ _ _ _ _ _ Hrun) as (new & Hvis & Hnd & _).
    by exists st', r, new.
  - intros drive call desc st. apply run_assertion_terminates.
  - intros A B failure config desc Hon HA HB.
    set (drive := cycle_drive A B failure). set (st := initial config).
    assert (Halias : alias_consistent drive) by apply cycle_drive_alias_consistent.
    assert (Hcoh : coherent drive st) by apply initial_state_inv.
    destruct (run_assertion_terminates drive (ForFile A) desc st) as [fuel0 Hfuel0].
    exists fuel0. intros fuel Hle. destruct (Hfuel0 fuel Hle) as [[st' r] Hrun].
    cbn [run_assertion] in Hrun. rewrite Hrun. clear Hfuel0 Hle.
    revert Hrun. unfold assertWriteAccessForFile, assertWriteAccessInternal.
    replace (enabled st) with true by done. cbn [negb].
    change (error st) with (AllowlistState.error config).
    change (ids st) with (AllowlistState.ids config).
    destruct (truthy (default "" (AllowlistState.error config))) eqn:Herr.
    { intros [= <- <-]. eexists _, _. split; [done |]. intros He. by rewrite He in Herr. }
    case_bool_decide as Hsize.
    { intros [= <- <-]. eexists _, _. split; [done |].
      intros _ Hne _. destruct Hne. apply leibniz_equiv. by apply size_empty_iff. }
    destruct (ensureRootResolved drive st) as [sa r0] eqn:Hres.
    destruct (ensureRootResolved_cases _ _ _ _ Hcoh Hres)
      as [([Hdone|Hout] & -> & ->)
         |[(_ & Hroot & n & Hn & _)
          |(_ & Hroot & e & _ & -> & _)]].
    + done.
    + cbn [check_targets]. unfold isIdWithinAllowlist.
      pose proof (loop_search drive fuel Halias [A] ∅ st Hcoh) as Hloop.
      destruct (isIdWithinAllowlist_loop drive fuel [A] ∅ st) as [[st2 r2]|]; [|done].
      destruct Hloop as (Hsearch & _).
      change (ids st) with (AllowlistState.ids config) in Hsearch.
      destruct r2 as [[]|e2].
      * apply search_decides in Hsearch. by apply cycle_drive_not_within in Hsearch.
      * intros [= <- <-]. by eexists _, _.
      * intros [= <- <-]. eexists _, _. split; [done |]. intros _ _ _.
        apply search_throws_reachable
          in Hsearch as (x & k & err & ->%list_elem_of_singleton & Hreach & Hk & _).
        apply cycle_drive_reachable in Hreach; [|by left].
        destruct (cycle_drive_fetch A B failure k Hreach) as (p & Hp & _).
        unfold fetch in Hp. fold drive in Hp. by rewrite Hk in Hp.
    + apply fetch_inl in Hn as (data & Hd & _). revert Hd.
      unfold Drive.files_get, drive, cycle_drive. cbn [Drive.files].
      change (ids st) with (AllowlistState.ids config) in Hroot.
      rewrite lookup_insert_ne by (intros Heq; apply HA; by rewrite Heq).
      rewrite lookup_singleton_ne by (intros Heq; apply HB; by rewrite Heq). done.
    + intros [= <- <-]. eexists _, _. split; [done |]. intros _ _ Hno. by destruct Hno.
Qed.

(** ** The theorems at work on the example stores *)

Lemma disabled_allowlist_example :
  let unconfigured :=
    initial (loadAllowlistState (λ _, inl JNull) (λ _, inl "") None None) in
  run_assertion example_drive 0 (ForFile "missing") "delete" unconfigured
  = Some (unconfigured, Return ()).
Proof.
  intros unconfigured. apply disabled_allowlist_permits_every_write. reflexivity.
Defined.

Lemma configuration_error_example :
  run_assertion example_drive 0 (ForFile "F1") "delete"
    (initial (AllowlistState.mk true {["F1"]} ["env:" +:+ ENV_ALLOWLIST]
                (Some "Unexpected end of JSON input")))
  = Some (initial (AllowlistState.mk true {["F1"]} ["env:" +:+ ENV_ALLOWLIST]
                     (Some "Unexpected end of JSON input")),
          Throw (ConfigurationError "env:GOOGLE_DRIVE_WRITE_ALLOWLIST"
                   "Unexpected end of JSON input")).
Proof.
  apply configuration_error_blocks_every_write; [reflexivity | reflexivity | discriminate].
Defined.

Lemma empty_allowlist_example :
  run_assertion example_drive 0 (ForParents (Some ["F1"])) "create" (initial (allowing ∅))
  = Some (initial (allowing ∅), Throw (EmptyAllowlist "env:GOOGLE_DRIVE_WRITE_ALLOWLIST")).
Proof.
  apply empty_allowlist_blocks_every_write; reflexivity.
Defined.

Lemma example_drive_alias_consistent : alias_consistent example_drive.
Proof. apply alias_consistentb_spec. vm_compute. reflexivity. Defined.

Lemma file_assertion_example :
  ∃ fuel0, ∀ fuel, fuel0 ≤ fuel →
    ∃ st' r,
      assertWriteAccessForFile example_drive fuel "A" "update" (initial (allowing {["F1"]}))
      = Some (st', r)
      ∧ ((∀ k e, Drive.files_get example_drive k = inr e → r ≠ Throw (lookup_error k e)) →
         (r = Return () ↔ within example_drive (ids st') "A")).
Proof.
  apply file_assertion_accepts_iff_within_allowlist.
  - exact example_drive_alias_consistent.
  - apply initial_state_inv.
  - reflexivity.
  - reflexivity.
  - exact (non_empty_singleton_L (C := gset string) "F1").
Defined.

Lemma unlisted_cycle_example :
  ∃ fuel0, ∀ fuel, fuel0 ≤ fuel →
    ∃ st' e,
      assertWriteAccessForFile (cycle_drive "A" "B" (λ _, not_found)) fuel "A" "update"
        (initial (allowing {["F1"]}))
      = Some (st', Throw e)
      ∧ (AllowlistState.error (allowing {["F1"]}) = None →
         AllowlistState.ids (allowing {["F1"]}) ≠ ∅ →
         "root" ∉ AllowlistState.ids (allowing {["F1"]}) →
         e = WriteBlocked "update" file "A").
Proof.
  apply (proj2 (proj2 traversal_terminates_and_rejects_unlisted_cycle)).
  - reflexivity.
  - intros H. vm_compute in H. discriminate H.
  - intros H. vm_compute in H. discriminate H.
Defined.

Lemma root_alias_example :
  (∃ st', assertWriteAccessForParent root_drive 1 None "create"
            (initial (allowing {["root"]})) = Some (st', Return ()))
  ∧ (∃ st', assertWriteAccessForFile root_drive 1 "R" "create"
              (initial (allowing {["root"]})) = Some (st', Return ())
            ∧ "R" ∈ ids st')
  ∧ (rootResolved (initial (allowing {["root"]})) = false →
     ∃ st', ensureRootResolved root_drive (initial (allowing {["root"]}))
            = (st', Return ())
            ∧ rootResolved st' = true
            ∧ ids st' = {["R"]} ∪ ids (initial (allowing {["root"]}))).
Proof.
  apply (root_alias_and_root_id_are_both_accepted root_drive
           (initial (allowing {["root"]})) (FileNode.mk "R" []) "create" 1).
  - apply initial_state_inv.
  - apply initial_state_inv.
  - reflexivity.
  - reflexivity.
  - vm_compute. reflexivity.
  - reflexivity.
  - lia.
Defined.


Lemma plain_text_allowlist_example :
  let JSON_parse := λ _ : string,
    inr {| js_message := "Unexpected token"; js_toString := "SyntaxError: Unexpected token" |} in
  let readFileSync := λ _ : string,
    inl (" F3 ," +:+ String "009" ("F1,, F4 " +:+ String "009" (String LF ""))) in
  let allowlistValue := Some ("F1, F2" +:+ String LF "F3") in
  let allowlistPath := Some "/etc/allowlist" in
  let state := loadAllowlistState JSON_parse readFileSync allowlistValue allowlistPath in
  AllowlistState.ids state = {["F1"; "F2"; "F3"; "F4"]}
  ∧ AllowlistState.error state = None
  ∧ NoDup (elements (AllowlistState.ids state))
  ∧ ∀ x, x ∈ AllowlistState.ids state ↔
         x ≠ ""
         ∧ ∃ src text l piece,
             is_source readFileSync allowlistValue allowlistPath src
             ∧ stripped src text ∧ pieces text l ∧ piece ∈ l ∧ stripped piece x.
Proof.
  intros JSON_parse readFileSync allowlistValue allowlistPath.
  split; [vm_compute; reflexivity |].
  apply (proj1 (plain_text_allowlist_is_split_trimmed_deduplicated JSON_parse readFileSync)).
  - intros src [Hsrc|(path & _ & Hsrc)].
    + injection Hsrc as <-. eexists. split; [apply trim_stripped |]. split; reflexivity.
    + injection Hsrc as <-. eexists. split; [apply trim_stripped |]. split; reflexivity.
  - intros path _. eexists. reflexivity.
Defined.


Lemma failed_lookup_not_cached_example :
  ∃ st',
    run_assertion example_drive 2 (ForFile "Z") "update" (initial (allowing {["F1"]}))
    = Some (st', Throw (FileNotFound "Z"))
    ∧ parentCache st' !! "Z" = None
    ∧ getFileNode example_drive "Z" st'
      = (record_request "Z" st', Throw (FileNotFound "Z"))
    ∧ requests (record_request "Z" st') = ["Z"; "Z"].
Proof.
  edestruct (proj2 (only_successful_lookups_are_cached example_drive) 2 (ForFile "Z")
               "update" (initial (allowing {["F1"]})))
    with (new := ["Z"]) (k := "Z") (e := not_found)
    as (Hmiss & Hagain & Hreq).
  - vm_compute. reflexivity.
  - reflexivity.
  - apply list_elem_of_singleton. reflexivity.
  - reflexivity.
  - eexists. split; [reflexivity |]. split; [exact Hmiss |].
    split; [exact Hagain | exact Hreq].
Defined.

(** * Further properties of the module *)

(** ** The status summary *)

Lemma getFileNode_throws drive fileId st st' e :
  getFileNode drive fileId st = (st', Throw e) → from_traversal e.
Proof.
  intros Hg. pose proof (getFileNode_cases drive fileId st) as Hc.
  rewrite Hg in Hc. simpl in Hc. inversion Hc as [| |err _ _]; subst.
  unfold lookup_error. destruct (Drive.code err) as [n|]; [|done].
  destruct n as [|p|p]; try done.
  do 9 (destruct p as [p|p|]; try done).
Qed.

Lemma loop_throws drive fuel :
  ∀ queue seen st st' e,
    isIdWithinAllowlist_loop drive fuel queue seen st = Some (st', Throw e) →
    from_traversal e.
Proof.
  induction fuel as [|fuel IH]; intros queue seen st st' e Hrun; [done |].
  destruct queue as [|currentId queue]; [done |].
  rewrite loop_cons in Hrun.
  destruct (negb (truthy currentId) || bool_decide (currentId ∈ seen)); [by eapply IH |].
  destruct (bool_decide (currentId ∈ ids (record_visit currentId st))); [done |].
  destruct (getFileNode drive currentId (record_visit currentId st))
    as [st1 [node|e1]] eqn:Hg.
  - destruct (bool_decide (FileNode.id node ∈ ids st1)); [done | by eapply IH].
  - simplify_eq. by eapply getFileNode_throws.
Qed.

Lemma check_targets_throws drive fuel desc label :
  ∀ targetIds st st' e,
    check_targets drive fuel desc label targetIds st = Some (st', Throw e) →
    from_traversal e.
Proof.
  induction targetIds as [|targetId rest IH]; intros st st' e Hrun; [done |].
  cbn [check_targets] in Hrun. unfold isIdWithinAllowlist in Hrun.
  destruct (isIdWithinAllowlist_loop drive fuel [targetId] ∅ st)
    as [[st1 [[]|e1]]|] eqn:Hloop; [by eapply IH | by simplify_eq | | done].
  simplify_eq. by eapply loop_throws.
Qed.

Lemma ensureRootResolved_throws drive st st' e :
  ensureRootResolved drive st = (st', Throw e) → from_traversal e.
Proof.
  unfold ensureRootResolved. destruct (_ || _); [done |].
  destruct (getFileNode drive "root" st) as [st1 [rootNode|e1]] eqn:Hg; [done |].
  intros [= <- <-]. by eapply getFileNode_throws.
Qed.

(** X1. The summary takes one of four forms, and each tells what the gate
    does in that state: "disabled" when every assertion returns at once;
    "ERROR", with the sources and the message the configuration error will
    carry, when every assertion throws that error; "enabled but empty" when
    every assertion throws the empty-allowlist error; and otherwise "enabled"
    with the size of the ID set in decimal, "ID" in the singular for one,
    when no assertion is stopped by either configuration gate. *)
Theorem summary_tells_what_the_gate_does st :
  (getWriteAllowlistSummary st = "Write allowlist: disabled (full write access)."
   ∧ ∀ drive fuel call desc,
       run_assertion drive fuel call desc st = Some (st, Return ()))
  ∨ (∃ e,
       getWriteAllowlistSummary st
       = "Write allowlist: ERROR (" +:+ formatSources (allowlistState st) +:+ "): "
           +:+ e +:+ ". Writes will be blocked."
       ∧ ∀ drive fuel call desc,
           run_assertion drive fuel call desc st
           = Some (st, Throw (ConfigurationError (formatSources (allowlistState st)) e)))
  ∨ (getWriteAllowlistSummary st
     = "Write allowlist: enabled but empty (" +:+ formatSources (allowlistState st)
         +:+ "). Writes will be blocked."
     ∧ ∀ drive fuel call desc,
         run_assertion drive fuel call desc st
         = Some (st, Throw (EmptyAllowlist (formatSources (allowlistState st)))))
  ∨ (∃ n,
       n = size (ids st) ∧ 1 ≤ n
       ∧ getWriteAllowlistSummary st
         = "Write allowlist: enabled (" +:+ pretty.pretty n +:+ " ID"
             +:+ (if bool_decide (n = 1) then "" else "s") +:+ ")."
       ∧ ∀ drive fuel call desc st' e,
           run_assertion drive fuel call desc st = Some (st', Throw e) →
           from_traversal e).
Proof.
  unfold getWriteAllowlistSummary.
  setoid_rewrite run_assertion_internal. unfold assertWriteAccessInternal.
  destruct (negb (enabled st)); [by left |].
  destruct (truthy (default "" (error st))); [right; left; by eexists |].
  case_bool_decide as Hsize; [right; right; by left |].
  right. right. right. exists (size (ids st)). split_and!; [done | lia | done |].
  intros drive fuel call desc st' e.
  destruct (ensureRootResolved drive st) as [st1 [[]|e1]] eqn:Hroot.
  - apply check_targets_throws.
  - intros [= <- <-]. by eapply ensureRootResolved_throws.
Qed.

(** ** The loaded configuration *)

(** Every way [loadAllowlistState] can go. *)
Ltac load_cases JSON_parse readFileSync allowlistValue allowlistPath :=
  unfold loadAllowlistState;
  destruct allowlistValue as [?value|];
  [destruct (parseAllowlistInput JSON_parse value) as [?parsed|?e] eqn:?Hinline |];
  (destruct allowlistPath as [?path|];
   [destruct (readFileSync path) as [?contents|?e] eqn:?Hread;
    [destruct (parseAllowlistInput JSON_parse contents) as [?parsed|?e] eqn:?Hfile |] |]).

(** X2. Whatever the sources hold, plain text or JSON, well formed or not,
    every ID of the loaded set is non-empty and neither starts nor ends with
    a white-space character. *)
Theorem loaded_ids_are_normalized JSON_parse readFileSync allowlistValue allowlistPath x :
  x ∈ AllowlistState.ids
        (loadAllowlistState JSON_parse readFileSync allowlistValue allowlistPath) →
  x ≠ "" ∧ bare x.
Proof.
  assert (Hnorm : ∀ l : list string,
            x ∈ (list_to_set (filter (λ id, truthy id = true) (trim <$> l)) : gset string) →
            x ≠ "" ∧ bare x).
  { intros l (Hx & y & _ & ->)%elem_of_normalized_ids.
    split; [done | apply trim_bare]. }
  load_cases JSON_parse readFileSync allowlistValue allowlistPath;
    cbn [AllowlistState.ids]; apply Hnorm.
Qed.

Lemma loaded_ids_example :
  let config :=
    loadAllowlistState example_JSON_parse (λ _, inl (" F1 ," +:+ String "009" ""))
      (Some padded_array_text) (Some "/etc/allowlist") in
  AllowlistState.ids config = {["F2"; "7"; "F1"]}
  ∧ "F2" ∈ AllowlistState.ids config
  ∧ "F2" ≠ "" ∧ bare "F2".
Proof.
  intros config.
  assert (Hin : "F2" ∈ AllowlistState.ids config) by (vm_compute; reflexivity).
  split; [vm_compute; reflexivity |]. split; [exact Hin |].
  exact (loaded_ids_are_normalized _ _ _ _ _ Hin).
Defined.

(** X3. The sources are recorded as soon as they are configured, whether or
    not they can be read and parsed: the inline label first, then the file
    label with its path. So the allowlist is enabled exactly when a source is
    recorded, and the sources of an enabled configuration never format as
    "unknown source". *)
Theorem loaded_sources_name_what_is_configured
    JSON_parse readFileSync allowlistValue allowlistPath :
  let state := loadAllowlistState JSON_parse readFileSync allowlistValue allowlistPath in
  AllowlistState.sources state
  = match allowlistValue with
    | Some _ => ["env:GOOGLE_DRIVE_WRITE_ALLOWLIST"]
    | None => []
    end
    ++ match allowlistPath with
       | Some path => ["file:" +:+ path]
       | None => []
       end
  ∧ (AllowlistState.enabled state = true ↔ AllowlistState.sources state ≠ [])
  ∧ (AllowlistState.enabled state = true → formatSources state ≠ "unknown source").
Proof.
  load_cases JSON_parse readFileSync allowlistValue allowlistPath;
    cbn [AllowlistState.sources AllowlistState.enabled app formatSources join];
    by split_and!.
Qed.

Lemma loaded_sources_example :
  formatSources
    (loadAllowlistState (λ _, inl JNull) (λ _, inr {| js_message := "ENOENT"; js_toString := "Error: ENOENT" |})
       (Some "F1") (Some "/etc/allowlist"))
  ≠ "unknown source".
Proof.
  apply (loaded_sources_name_what_is_configured (λ _, inl JNull)
           (λ _, inr {| js_message := "ENOENT"; js_toString := "Error: ENOENT" |})
           (Some "F1") (Some "/etc/allowlist")).
  reflexivity.
Defined.

Lemma normalized_ids_app (l1 l2 : list string) :
  (list_to_set (filter (λ id, truthy id = true) (trim <$> (l1 ++ l2))) : gset string)
  = list_to_set (filter (λ id, truthy id = true) (trim <$> l1))
    ∪ list_to_set (filter (λ id, truthy id = true) (trim <$> l2)).
Proof. by rewrite fmap_app, filter_app, list_to_set_app_L. Qed.

(** X4. The two sources contribute independently: loading both gives the
    union of the ID sets, the concatenation of the source labels and the
    disjunction of the enabled flags of loading each alone, and the error
    messages of the two, the inline one first, joined by a space. *)
Theorem sources_contribute_independently
    JSON_parse readFileSync allowlistValue allowlistPath :
  let both := loadAllowlistState JSON_parse readFileSync allowlistValue allowlistPath in
  let inline := loadAllowlistState JSON_parse readFileSync allowlistValue None in
  let from_file := loadAllowlistState JSON_parse readFileSync None allowlistPath in
  AllowlistState.ids both = AllowlistState.ids inline ∪ AllowlistState.ids from_file
  ∧ AllowlistState.sources both
    = AllowlistState.sources inline ++ AllowlistState.sources from_file
  ∧ AllowlistState.enabled both
    = AllowlistState.enabled inline || AllowlistState.enabled from_file
  ∧ AllowlistState.error both
    = match AllowlistState.error inline, AllowlistState.error from_file with
      | Some a, Some b => Some (a +:+ " " +:+ b)
      | Some a, None => Some a
      | None, other => other
      end.
Proof.
  load_cases JSON_parse readFileSync allowlistValue allowlistPath;
    cbn [AllowlistState.ids AllowlistState.sources AllowlistState.enabled
         AllowlistState.error app orb join];
    rewrite ?app_nil_r, ?normalized_ids_app;
    split_and!; try done; set_solver.
Qed.

(** X5. A configured allowlist file that cannot be read blocks every write,
    whatever the inline value holds: the loaded state carries the error
    "Failed to read", the path and the cause, after the inline error if there
    is one, and every assertion in the fresh process throws the configuration
    error with that message, without touching the state. *)
Theorem unreadable_file_blocks_every_write
    JSON_parse readFileSync allowlistValue path cause :
  readFileSync path = inr cause →
  let st := initial (loadAllowlistState JSON_parse readFileSync allowlistValue (Some path)) in
  let failed := "Failed to read " +:+ path +:+ ": " +:+ describe cause in
  let message :=
    match AllowlistState.error
            (loadAllowlistState JSON_parse readFileSync allowlistValue None) with
    | Some inline => inline +:+ " " +:+ failed
    | None => failed
    end in
  error st = Some message
  ∧ ∀ drive fuel call desc,
      run_assertion drive fuel call desc st
      = Some (st, Throw (ConfigurationError (formatSources (allowlistState st)) message)).
Proof.
  intros Hread st failed message.
  assert (Hgate : ∀ before,
            enabled st = true →
            error st = Some (before +:+ failed) →
            ∀ drive fuel call desc,
              run_assertion drive fuel call desc st
              = Some (st, Throw (ConfigurationError (formatSources (allowlistState st))
                                   (before +:+ failed)))).
  { intros before Hon Herr drive fuel call desc. rewrite run_assertion_internal.
    unfold assertWriteAccessInternal. rewrite Hon, Herr. cbn [negb default].
    by destruct before. }
  subst st message. revert Hgate.
  unfold error, enabled, loadAllowlistState. cbn [allowlistState initial].
  rewrite Hread.
  destruct allowlistValue as [value|];
    [destruct (parseAllowlistInput JSON_parse value) as [parsed|e] |];
    cbn [AllowlistState.error AllowlistState.enabled app join]; intros Hgate.
  - split; [done |]. by apply (Hgate "").
  - split; [done |]. specialize (Hgate (describe e +:+ " ")).
    rewrite !append_assoc in Hgate. by apply Hgate.
  - split; [done |]. by apply (Hgate "").
Qed.

Lemma unreadable_file_example :
  let st :=
    initial (loadAllowlistState example_JSON_parse (λ _, inr ENOENT)
               (Some hidden_toString_text) (Some "/etc/allowlist")) in
  run_assertion example_drive 0 (ForFile "F1") "update" st
  = Some (st,
          Throw (ConfigurationError
                   "env:GOOGLE_DRIVE_WRITE_ALLOWLIST, file:/etc/allowlist"
                   ("Cannot convert object to primitive value "
                      +:+ "Failed to read /etc/allowlist: ENOENT"))).
Proof.
  intros st.
  apply (unreadable_file_blocks_every_write example_JSON_parse (λ _, inr ENOENT)
           (Some hidden_toString_text) "/etc/allowlist" ENOENT eq_refl).
Defined.

(** ** Structured and plain-text content *)

Lemma get_field_filter (P : string * Json → Prop) `{!∀ kv, Decision (P kv)} fields field :
  (∀ v, P (field, v)) →
  get_field (filter P fields) field = get_field fields field.
Proof.
  intros Hkeep. induction fields as [|[k v] rest IH]; [done |].
  rewrite filter_cons. destruct (decide (P (k, v))) as [Hp|Hp]; simpl; rewrite IH.
  - done.
  - case_bool_decide as Hk; [|by destruct (get_field rest field)].
    subst k. by destruct Hp.
Qed.

Lemma get_field_NoDup fields field v :
  NoDup fields.*1 →
  get_field fields field = Some v ↔ (field, v) ∈ fields.
Proof.
  revert v. induction fields as [|[k v0] rest IH]; intros v Hnd.
  { split; [done | by intros ?%elem_of_nil]. }
  rewrite fmap_cons in Hnd. apply NoDup_cons in Hnd as [Hk Hrest].
  assert (IH' := λ w, IH w Hrest). clear IH. simpl. rewrite elem_of_cons.
  destruct (get_field rest field) as [v'|] eqn:Hget.
  - split.
    + intros [= ->]. right. by apply IH'.
    + intros [[= <- <-]|Hin]; [|by apply IH' in Hin].
      destruct Hk. apply list_elem_of_fmap. exists (field, v').
      split; [done |]. by apply IH'.
  - case_bool_decide as Heq.
    + subst k. split; [intros [= ->]; by left |].
      intros [[= <-]|Hin]; [done |]. by apply IH' in Hin.
    + split; [done |]. intros [[= <- <-]|Hin]; [done |]. by apply IH' in Hin.
Qed.

Lemma get_field_None fields k : get_field fields k = None ↔ k ∉ fields.*1.
Proof.
  induction fields as [|[k0 v0] rest IH]; [split; [by intros _ ?%elem_of_nil | done] |].
  cbn [get_field]. rewrite fmap_cons, not_elem_of_cons. cbn [fst].
  destruct (get_field rest k) as [v'|].
  - split; [done |]. intros [_ Hrest]. by apply IH in Hrest.
  - case_bool_decide as Hk.
    + split; [done |]. by intros [? _].
    + split; [|done]. intros _. split; [done | by apply IH].
Qed.

Lemma get_field_app before after k :
  get_field (before ++ after) k
  = match get_field after k with
    | Some v => Some v
    | None => get_field before k
    end.
Proof.
  induction before as [|[k0 v0] before IH]; cbn [app get_field].
  { by destruct (get_field after k). } rewrite IH. by destruct (get_field after k).
Qed.

(** [get_field] finds the value of the last field of that name. *)
Lemma get_field_value fields k v : get_field fields k = v ↔ field_value fields k v.
Proof.
  split.
  - intros <-. induction fields as [|[k0 v0] rest IH].
    { by intros ?%elem_of_nil. }
    cbn [get_field]. destruct (get_field rest k) as [v'|] eqn:Hrest.
    + destruct IH as (before & after & -> & Hafter).
      by exists ((k0, v0) :: before), after.
    + apply get_field_None in Hrest. case_bool_decide as Hk.
      * subst k0. by exists [], rest.
      * unfold field_value. rewrite fmap_cons, not_elem_of_cons. by split.
  - destruct v as [value|]; [|by intros ?%get_field_None].
    intros (before & after & -> & Hafter). rewrite get_field_app. cbn [get_field].
    apply get_field_None in Hafter. rewrite Hafter. by rewrite bool_decide_eq_true_2.
Qed.

(** One turn of the loop of [extractIds]. *)
Lemma extractIds_from_cons parsed field rest ids out :
  extractIds_from parsed (field :: rest) ids = inl out
  ↔ ∃ strings,
      contributes (get_field parsed field) strings
      ∧ extractIds_from parsed rest (ids ++ strings) = inl out.
Proof.
  cbn [extractIds_from]. unfold contributes.
  destruct (get_field parsed field) as [[|b|shown|s|items|fields]|];
    try (split; [intros Hout; exists []; by rewrite app_nil_r
                | intros (strings & -> & Hout); by rewrite app_nil_r in Hout]).
  - split; [by eauto | by intros (strings & -> & Hout)].
  - destruct (map_throwing js_String items) as [strings|e] eqn:Hitems.
    + apply map_throwing_inl in Hitems as Hall. split; [by eauto |].
      intros (strings' & Hall' & Hout). apply map_throwing_inl in Hall'. congruence.
    + split; [done |]. intros (strings' & Hall' & _).
      apply map_throwing_inl in Hall'. congruence.
Qed.

Lemma extractIds_from_fails parsed fields : ∀ ids e,
  extractIds_from parsed fields ids = inr e →
  ∃ k items item,
    k ∈ fields ∧ get_field parsed k = Some (JArray items)
    ∧ item ∈ items ∧ js_String item = inr e.
Proof.
  induction fields as [|field rest IH]; intros ids e; cbn [extractIds_from]; [done |].
  assert (Hrest : ∀ ids', extractIds_from parsed rest ids' = inr e →
            ∃ k items item,
              k ∈ field :: rest ∧ get_field parsed k = Some (JArray items)
              ∧ item ∈ items ∧ js_String item = inr e).
  { intros ids' (k & items & item & Hk & ?)%IH. exists k, items, item.
    split; [by apply elem_of_cons; right | done]. }
  destruct (get_field parsed field) as [[|b|shown|s|items|fields']|] eqn:Hfield;
    try apply Hrest.
  destruct (map_throwing js_String items) as [strings|e'] eqn:Hitems; [apply Hrest |].
  intros [= <-]. apply map_throwing_inr in Hitems as (item & Hin & Hitem).
  exists field, items, item. split; [by apply elem_of_cons; left | done].
Qed.

Lemma extractIds_from_ext a b fields :
  (∀ field, field ∈ fields → get_field a field = get_field b field) →
  ∀ ids, extractIds_from a fields ids = extractIds_from b fields ids.
Proof.
  induction fields as [|field rest IH]; intros Hsame ids; [done |].
  cbn [extractIds_from]. rewrite (Hsame field) by (by apply elem_of_cons; left).
  assert (Hrest : ∀ ids', extractIds_from a rest ids' = extractIds_from b rest ids').
  { apply IH. intros k Hk. apply Hsame. by apply elem_of_cons; right. }
  destruct (get_field b field) as [[|?|?|?|items|?]|]; try apply Hrest.
  destruct (map_throwing js_String items); [apply Hrest | done].
Qed.

(** X6. [extractIds] reads the fields ids, files and folders, in that order,
    and nothing else. It returns the strings the three fields contribute, one
    after the other, where each field is looked up as the last field of that
    name, a string contributes itself, an array the [String] of each item, and
    anything else nothing. It throws only when [String] throws on an item of
    one of the three arrays, and then that [TypeError]. Dropping every other
    field of the object leaves its result unchanged, and for an object
    without repeated keys the order in which the fields were written does not
    matter. *)
Theorem extractIds_reads_only_its_fields_in_any_order fields :
  (∀ out,
     extractIds fields = inl out
     ↔ ∃ ids files folders a b c,
         field_value fields "ids" ids
         ∧ field_value fields "files" files
         ∧ field_value fields "folders" folders
         ∧ contributes ids a ∧ contributes files b ∧ contributes folders c
         ∧ out = a ++ b ++ c)
  ∧ (∀ e,
       extractIds fields = inr e →
       e = TypeError_primitive
       ∧ ∃ k items item,
           k ∈ id_fields ∧ field_value fields k (Some (JArray items))
           ∧ item ∈ items ∧ js_String item = inr e)
  ∧ extractIds (filter (λ kv, kv.1 ∈ id_fields) fields) = extractIds fields
  ∧ (∀ other,
       NoDup fields.*1 → fields ≡ₚ other → extractIds other = extractIds fields).
Proof.
  split_and!.
  - intros out. unfold extractIds. rewrite extractIds_from_cons.
    setoid_rewrite extractIds_from_cons. setoid_rewrite extractIds_from_cons.
    cbn [extractIds_from app]. split.
    + intros (a & Ha & b & Hb & c & Hc & [= <-]).
      exists (get_field fields "ids"), (get_field fields "files"),
        (get_field fields "folders"), a, b, c.
      split_and!; try (by apply get_field_value); try done.
      by rewrite app_assoc.
    + intros (ids & files & folders & a & b & c
              & <-%get_field_value & <-%get_field_value & <-%get_field_value
              & Ha & Hb & Hc & ->).
      exists a. split; [done |]. exists b. split; [done |]. exists c.
      split; [done |]. by rewrite app_assoc.
  - intros e He. split; [by eapply extractIds_from_throws |].
    apply extractIds_from_fails in He as (k & items & item & Hk & Hfield & Hitem).
    exists k, items, item. split; [done |]. split; [by apply get_field_value | done].
  - apply extractIds_from_ext. intros field Hfield.
    by apply (get_field_filter (λ kv, kv.1 ∈ id_fields)).
  - intros other Hnd Hperm. apply extractIds_from_ext. intros field _.
    assert (Hndo : NoDup other.*1) by by rewrite <- Hperm.
    apply option_eq. intros v.
    rewrite (get_field_NoDup other), (get_field_NoDup fields) by done.
    by rewrite Hperm.
Qed.

Lemma extractIds_example :
  let fields :=
    [("folders", JArray [JString "F1"; JNumber "7"]);
     ("note", JObject [("toString", JNull)]);
     ("ids", JString "F2")] in
  let other :=
    [("note", JObject [("toString", JNull)]);
     ("folders", JArray [JString "F1"; JNumber "7"]);
     ("ids", JString "F2")] in
  extractIds fields = inl ["F2"; "F1"; "7"]
  ∧ extractIds other = extractIds fields.
Proof.
  intros fields other. split; [reflexivity |].
  apply (extractIds_reads_only_its_fields_in_any_order fields).
  - vm_compute. repeat constructor; intros H; vm_compute in H;
      repeat (apply elem_of_cons in H as [H|H]; [discriminate H |]);
      by apply elem_of_nil in H.
  - apply Permutation_swap.
Defined.

Lemma join_cons2 sep x y rest :
  join sep (x :: y :: rest) = x +:+ sep +:+ join sep (y :: rest).
Proof. done. Qed.


Lemma splitList_padded_join before c after :
  padding before → is_separator c = true → padding after →
  ∀ l, l ≠ [] → Forall listable l →
  ∀ pre, padding pre →
    splitList (pre +:+ join (before +:+ String c after) l) = l.
Proof.
  intros [Hbw Hbf] Hc [Haw Haf]. unfold splitList.
  induction l as [|x [|y rest] IH]; intros Hne Hl pre [Hpw Hpf]; [done | |].
  - apply Forall_singleton in Hl as [Hx Hfree]. cbn [join].
    unfold split. rewrite split_from_separator_free
      by (by rewrite separator_free_app, Hpf, Hfree).
    cbn [fmap list_fmap]. rewrite append_empty_l.
    rewrite <- (append_empty_r x) at 1. rewrite (trim_padded pre x "") by done.
    rewrite filter_cons_True by (apply truthy_nonempty; apply Hx). done.
  - apply Forall_cons in Hl as [[Hx Hfree] Hrest]. rewrite join_cons2.
    replace (pre +:+ x +:+ (before +:+ String c after) +:+ join (before +:+ String c after) (y :: rest))
      with ((pre +:+ x +:+ before)
              +:+ String c (after +:+ join (before +:+ String c after) (y :: rest)))
      by (by rewrite !append_assoc).
    unfold split. rewrite split_from_cut;
      [| by rewrite !separator_free_app, Hpf, Hfree, Hbf | done].
    fold (split (after +:+ join (before +:+ String c after) (y :: rest))).
    rewrite fmap_cons, append_empty_l. rewrite (trim_padded pre x before) by done.
    rewrite filter_cons_True by (apply truthy_nonempty; apply Hx).
    f_equal. by apply IH.
Qed.

Lemma join_nonempty_head sep x rest :
  x ≠ "" → ∃ c r, x = String c r ∧ ∃ tail, join sep (x :: rest) = String c tail.
Proof.
  intros Hx. destruct x as [|c r]; [done |]. exists c, r. split; [done |].
  destruct rest; [by exists r | by eexists].
Qed.

Lemma join_last_fixed sep l :
  l ≠ [] → Forall listable l → trimEnd (join sep l) = join sep l.
Proof.
  induction l as [|x [|y rest] IH]; intros Hne Hl; [done | |].
  - apply Forall_singleton in Hl as [Hx _]. cbn [join].
    by destruct (normalized_ends x Hx) as (_ & ? & _).
  - apply Forall_cons in Hl as [_ Hrest]. rewrite join_cons2.
    rewrite <- append_assoc. apply trimEnd_app_fixed; [|by apply IH].
    apply Forall_cons in Hrest as [[[Hy _] _] _].
    destruct (join_nonempty_head sep y rest Hy) as (c & r & _ & tail & ->). done.
Qed.

(** X7. A list of IDs written out with a newline or comma between them,
    optionally padded with white space other than newlines, and possibly with
    such white space around the whole, is read back as that very list, in
    order, provided each ID is non-empty, has no white space at its ends and
    holds no newline or comma, and the first does not start with a brace or a
    bracket. Loading that text as the only source yields these IDs and no
    error. *)
Theorem listed_ids_are_read_back JSON_parse readFileSync before c after l :
  padding before →
  is_separator c = true →
  padding after →
  Forall listable l →
  (∀ x rest, l = x :: rest → startsWith x "{" = false ∧ startsWith x "[" = false) →
  let text := join (before +:+ String c after) l in
  parseAllowlistInput JSON_parse text = inl l
  ∧ parseAllowlistInput JSON_parse (before +:+ text +:+ after) = inl l
  ∧ loadAllowlistState JSON_parse readFileSync (Some text) None
    = AllowlistState.mk true (list_to_set l) ["env:GOOGLE_DRIVE_WRITE_ALLOWLIST"] None.
Proof.
  intros Hb Hc Ha Hl Hfirst text.
  assert (Htrim : ∀ w1 w2, all_white w1 = true → all_white w2 = true →
            trim (w1 +:+ text +:+ w2) = text).
  { intros w1 w2 Hw1 Hw2. subst text. destruct l as [|x rest]; cbn [join].
    - unfold trim. rewrite trimStart_app_white, append_empty_l by done.
      rewrite <- (append_empty_r w2). by rewrite trimStart_app_white.
    - apply Forall_cons in Hl as Hl'. destruct Hl' as [[Hx _] _].
      destruct (normalized_ends x Hx) as (_ & _ & c' & r & -> & Hc').
      unfold trim. rewrite trimStart_app_white by done.
      destruct (join_nonempty_head (before +:+ String c after) (String c' r) rest)
        as (c'' & r' & [= <- <-] & tail & Hjoin); [done |].
      rewrite Hjoin at 1. rewrite append_cons. cbn [trimStart]. rewrite Hc'.
      rewrite <- append_cons, <- Hjoin. rewrite trimEnd_app_white by done.
      by apply join_last_fixed. }
  assert (Hparse : ∀ raw, trim raw = text →
            parseAllowlistInput JSON_parse raw = inl l).
  { intros raw Hraw. unfold parseAllowlistInput. rewrite Hraw. subst text.
    destruct l as [|x rest]; [done |].
    apply Forall_cons in Hl as Hl'. destruct Hl' as [[Hx _] _].
    destruct (join_nonempty_head (before +:+ String c after) x rest)
      as (c' & r & -> & tail & Hjoin); [apply Hx |].
    destruct (Hfirst _ _ eq_refl) as [Hbrace Hbracket].
    rewrite Hjoin. cbn [truthy negb startsWith] in *. rewrite Hbrace, Hbracket.
    cbn [orb]. rewrite <- Hjoin. f_equal.
    assert (Hpad : padding "") by done.
    assert (Hcons : String c' r :: rest ≠ []) by done.
    exact (splitList_padded_join before c after Hb Hc Ha _ Hcons Hl "" Hpad). }
  assert (Hplain : parseAllowlistInput JSON_parse text = inl l).
  { apply Hparse. pose proof (Htrim "" "" eq_refl eq_refl) as Hid.
    by rewrite append_empty_l, append_empty_r in Hid. }
  split_and!; [done | apply Hparse, Htrim; [apply Hb | apply Ha] |].
  unfold loadAllowlistState. rewrite Hplain. f_equal.
  cut (filter (λ id, truthy id = true) (trim <$> l) = l); [by intros -> |].
  clear -Hl. induction Hl as [|x l [[Hx Htrimx] _] _ IH]; [done |].
  rewrite fmap_cons, Htrimx, filter_cons_True by by apply truthy_nonempty.
  by rewrite IH.
Qed.

Lemma listed_ids_example :
  parseAllowlistInput (λ _, inl JNull) ("F1" +:+ ", " +:+ "F2") = inl ["F1"; "F2"].
Proof.
  apply (listed_ids_are_read_back (λ _, inl JNull) (λ _, inl "") "" ","%char " "
           ["F1"; "F2"]).
  - split; reflexivity.
  - reflexivity.
  - split; reflexivity.
  - repeat constructor; discriminate.
  - intros x rest Hl. injection Hl as <- <-. split; reflexivity.
Defined.

(** ** The resolver and the traversal *)

Lemma getFileNode_frame drive fileId st st' r :
  getFileNode drive fileId st = (st', r) →
  allowlistState st' = allowlistState st ∧ rootResolved st' = rootResolved st.
Proof.
  intros Hg. pose proof (getFileNode_cases drive fileId st) as Hc.
  rewrite Hg in Hc. simpl in Hc. by inversion Hc; subst.
Qed.

(** X8. A lookup that had to ask the store and got a node makes the next
    lookups free: asking again for the same ID, or for the non-empty ID the
    node carries, returns that node from the cache and changes nothing, the
    request history included. *)
Theorem successful_lookup_is_memoised drive fileId st data :
  parentCache st !! fileId = None →
  Drive.files_get drive fileId = inl data →
  let node := node_of_response fileId data in
  ∃ st1,
    getFileNode drive fileId st = (st1, Return node)
    ∧ requests st1 = requests st ++ [fileId]
    ∧ getFileNode drive fileId st1 = (st1, Return node)
    ∧ (FileNode.id node ≠ "" →
       getFileNode drive (FileNode.id node) st1 = (st1, Return node)).
Proof.
  intros Hmiss Hd node.
  destruct (getFileNode_success drive fileId st data Hmiss Hd)
    as (st1 & Hg & _ & _ & _ & Hreq & Hcache).
  fold node in Hg, Hcache. exists st1. split_and!; [done | done | |].
  - apply getFileNode_hit. rewrite Hcache.
    destruct (truthy (FileNode.id node) && negb (bool_decide (FileNode.id node = fileId)))
      eqn:Halias.
    + apply andb_true_iff in Halias as [_ Hne%negb_true_iff%bool_decide_eq_false].
      rewrite lookup_insert_ne by done. apply lookup_insert_eq.
    + apply lookup_insert_eq.
  - intros Hid. apply getFileNode_hit. rewrite Hcache.
    apply truthy_nonempty in Hid. rewrite Hid. cbn [andb].
    case_bool_decide as Heq; cbn [negb].
    + rewrite Heq. apply lookup_insert_eq.
    + apply lookup_insert_eq.
Qed.

Lemma memoised_lookup_example :
  ∃ st1,
    getFileNode root_drive "root" (initial (allowing {["R"]}))
    = (st1, Return (FileNode.mk "R" []))
    ∧ requests st1 = ["root"]
    ∧ getFileNode root_drive "root" st1 = (st1, Return (FileNode.mk "R" []))
    ∧ ("R" ≠ "" → getFileNode root_drive "R" st1 = (st1, Return (FileNode.mk "R" []))).
Proof.
  apply (successful_lookup_is_memoised root_drive "root" (initial (allowing {["R"]}))
           {| Drive.id := Some "R"; Drive.parents := Some [] |}).
  - reflexivity.
  - reflexivity.
Defined.

Lemma loop_requests drive fuel :
  ∀ queue seen st st' r,
    isIdWithinAllowlist_loop drive fuel queue seen st = Some (st', r) →
    allowlistState st' = allowlistState st
    ∧ rootResolved st' = rootResolved st
    ∧ ∃ new, issued st st' new
             ∧ ∀ k, k ∈ new → k ≠ "" ∧ (k ∉ ids st) ∧ k ∉ seen.
Proof.
  unfold issued.
  induction fuel as [|fuel IH]; intros queue seen st st' r Hrun; [done |].
  destruct queue as [|currentId queue].
  { rewrite loop_nil in Hrun. simplify_eq. split_and!; [done.. |].
    exists []. rewrite app_nil_r. split; [done | by intros k ?%elem_of_nil]. }
  rewrite loop_cons in Hrun.
  destruct (negb (truthy currentId) || bool_decide (currentId ∈ seen)) eqn:Hskip;
    [by eapply IH |].
  apply orb_false_iff in Hskip
    as [Hne%negb_false_iff%truthy_nonempty Hnew%bool_decide_eq_false].
  change (ids (record_visit currentId st)) with (ids st) in Hrun.
  case_bool_decide as Hin.
  { simplify_eq. split_and!; [done.. |].
    exists []. simpl. rewrite app_nil_r. split; [done | by intros k ?%elem_of_nil]. }
  destruct (getFileNode drive currentId (record_visit currentId st)) as [st1 r1] eqn:Hg.
  pose proof (getFileNode_frame _ _ _ _ _ Hg) as [Ha1 Hr1].
  cbn [allowlistState rootResolved record_visit] in Ha1, Hr1.
  assert (Hreq : ∃ new1, requests st1 = requests st ++ new1
                         ∧ ∀ k, k ∈ new1 → k = currentId).
  { pose proof (getFileNode_cases drive currentId (record_visit currentId st)) as Hc.
    rewrite Hg in Hc. simpl in Hc.
    inversion Hc as [| ? ? _ _ _ _ _ Hq _ |]; subst.
    - exists []. simpl. rewrite app_nil_r. split; [done | by intros k ?%elem_of_nil].
    - exists [currentId]. split; [done | by intros k ?%list_elem_of_singleton].
    - exists [currentId]. split; [done | by intros k ?%list_elem_of_singleton]. }
  destruct Hreq as (new1 & Hq1 & Hone).
  assert (Hdone : allowlistState st1 = allowlistState st
                  ∧ rootResolved st1 = rootResolved st
                  ∧ ∃ new, requests st1 = requests st ++ new
                           ∧ ∀ k, k ∈ new → k ≠ "" ∧ (k ∉ ids st) ∧ k ∉ seen).
  { split_and!; [done.. |]. exists new1. split; [done |].
    intros k ->%Hone. done. }
  destruct r1 as [node|e]; [|by simplify_eq].
  destruct (bool_decide (FileNode.id node ∈ ids st1)); [by simplify_eq |].
  apply IH in Hrun as (Ha & Hr & new2 & Hq2 & Hall).
  split_and!; [congruence.. |].
  exists (new1 ++ new2). split; [by rewrite Hq2, Hq1, app_assoc |].
  intros k [->%Hone|Hk]%elem_of_app; [done |].
  destruct (Hall k Hk) as (? & Hout & Hseen). split_and!; [done | | set_solver].
  unfold ids in *. by rewrite <- Ha1.
Qed.

Lemma check_targets_requests drive fuel desc label :
  ∀ targetIds st st' r,
    check_targets drive fuel desc label targetIds st = Some (st', r) →
    allowlistState st' = allowlistState st
    ∧ rootResolved st' = rootResolved st
    ∧ ∃ new, issued st st' new ∧ ∀ k, k ∈ new → k ≠ "" ∧ k ∉ ids st.
Proof.
  unfold issued.
  induction targetIds as [|targetId rest IH]; intros st st' r Hrun.
  { simplify_eq/=. split_and!; [done.. |].
    exists []. rewrite app_nil_r. split; [done | by intros k ?%elem_of_nil]. }
  cbn [check_targets] in Hrun. unfold isIdWithinAllowlist in Hrun.
  destruct (isIdWithinAllowlist_loop drive fuel [targetId] ∅ st) as [[st1 r1]|] eqn:Hloop;
    [|done].
  apply loop_requests in Hloop as (Ha1 & Hr1 & new1 & Hq1 & Hall1).
  assert (Hdone : allowlistState st1 = allowlistState st
                  ∧ rootResolved st1 = rootResolved st
                  ∧ ∃ new, requests st1 = requests st ++ new
                           ∧ ∀ k, k ∈ new → k ≠ "" ∧ k ∉ ids st).
  { split_and!; [done.. |]. exists new1. split; [done |].
    intros k Hk. by destruct (Hall1 k Hk) as (? & ? & _). }
  destruct r1 as [[]|e]; [|by simplify_eq..].
  apply IH in Hrun as (Ha & Hr & new2 & Hq2 & Hall2).
  split_and!; [congruence.. |].
  exists (new1 ++ new2). split; [by rewrite Hq2, Hq1, app_assoc |].
  intros k [Hk|Hk]%elem_of_app.
  - by destruct (Hall1 k Hk) as (? & ? & _).
  - destruct (Hall2 k Hk) as [? Hout]. split; [done |].
    unfold ids in *. by rewrite <- Ha1.
Qed.

(** Every way [ensureRootResolved] can go, on any cache. *)
Lemma ensureRootResolved_general drive st st' r :
  ensureRootResolved drive st = (st', r) →
  ((rootResolved st = true ∨ "root" ∉ ids st) ∧ st' = st ∧ r = Return ())
  ∨ (rootResolved st = false ∧ "root" ∈ ids st
     ∧ (∃ new, issued st st' new ∧ ∀ k, k ∈ new → k = "root")
     ∧ ((r = Return () ∧ rootResolved st' = true
         ∧ (allowlistState st' = allowlistState st
            ∨ ∃ c, c ≠ "" ∧ c ≠ "root"
                   ∧ allowlistState st' = allowlistState (ids_add c st)))
        ∨ (∃ e, r = Throw e) ∧ rootResolved st' = false
          ∧ allowlistState st' = allowlistState st)).
Proof.
  unfold ensureRootResolved, issued.
  destruct (rootResolved st) eqn:Hres; cbn [orb].
  { intros [= <- <-]. left. by eauto. }
  case_bool_decide as Hroot; cbn [negb]; [|intros [= <- <-]; left; by eauto].
  destruct (getFileNode drive "root" st) as [st1 r1] eqn:Hg.
  pose proof (getFileNode_frame _ _ _ _ _ Hg) as [Ha1 Hr1].
  assert (Hreq : ∃ new, requests st1 = requests st ++ new ∧ ∀ k, k ∈ new → k = "root").
  { pose proof (getFileNode_cases drive "root" st) as Hc.
    rewrite Hg in Hc. simpl in Hc.
    inversion Hc as [| ? ? _ _ _ _ _ Hq _ |]; subst.
    - exists []. rewrite app_nil_r. split; [done | by intros k ?%elem_of_nil].
    - exists ["root"]. split; [done | by intros k ?%list_elem_of_singleton].
    - exists ["root"]. split; [done | by intros k ?%list_elem_of_singleton]. }
  destruct r1 as [rootNode|e]; intros [= <- <-]; right; split_and!; try done.
  - destruct (truthy (FileNode.id rootNode)
              && negb (bool_decide (FileNode.id rootNode = "root"))); done.
  - left. split_and!; [done | by destruct (_ && _) |].
    destruct (truthy (FileNode.id rootNode)) eqn:Hid; cbn [andb]; [|by left].
    case_bool_decide as Heq; cbn [negb]; [by left |].
    right. exists (FileNode.id rootNode).
    split_and!; [by apply truthy_nonempty | done |].
    cbn [allowlistState set_rootResolved ids_add]. by rewrite Ha1.
  - right. split_and!; [by eexists | congruence | done].
Qed.

(** X9. An assertion changes the configuration at most once in the life of a
    process: apart from the one call that resolves the root, which adds one
    non-empty ID other than "root" to the ID set and sets the root flag, every
    call leaves the allowlist state as it was; the flag, once set, stays set,
    and from then on the ID set is fixed. *)
Theorem id_set_changes_only_when_root_is_resolved drive fuel call desc st st' r :
  run_assertion drive fuel call desc st = Some (st', r) →
  (rootResolved st = true →
   rootResolved st' = true ∧ allowlistState st' = allowlistState st)
  ∧ (allowlistState st' = allowlistState st
     ∨ ∃ c, c ≠ "" ∧ c ≠ "root"
            ∧ rootResolved st = false ∧ "root" ∈ ids st
            ∧ rootResolved st' = true
            ∧ allowlistState st' = allowlistState (ids_add c st)).
Proof.
  rewrite run_assertion_internal. unfold assertWriteAccessInternal.
  destruct (negb (enabled st)); [by intros [= <- <-]; eauto |].
  destruct (truthy (default "" (error st))); [by intros [= <- <-]; eauto |].
  destruct (bool_decide (size (ids st) = 0)); [by intros [= <- <-]; eauto |].
  destruct (ensureRootResolved drive st) as [sa r0] eqn:Hroot.
  apply ensureRootResolved_general in Hroot
    as [(Hdone & -> & ->)
       |(Hfirst & Hin & _ & [(-> & Hset & Hids)|((e & ->) & Hunset & Hsame)])].
  - intros (Ha & Hr & _)%check_targets_requests.
    split; [intros Hres; split; congruence | by left].
  - intros (Ha & Hr & _)%check_targets_requests.
    split; [congruence |].
    destruct Hids as [Hsame|(c & Hc & Hc' & Hadd)]; [left; congruence |].
    right. exists c. split_and!; [done.. | congruence | congruence].
  - intros [= <- <-]. split; [congruence | by left].
Qed.

Lemma id_set_example :
  ∃ st' r,
    run_assertion root_drive 2 (ForFile "R") "update" (initial (allowing {["root"]}))
    = Some (st', r)
    ∧ (allowlistState st' = allowlistState (initial (allowing {["root"]}))
       ∨ ∃ c, c ≠ "" ∧ c ≠ "root"
              ∧ rootResolved (initial (allowing {["root"]})) = false
              ∧ "root" ∈ ids (initial (allowing {["root"]}))
              ∧ rootResolved st' = true
              ∧ allowlistState st'
                = allowlistState (ids_add c (initial (allowing {["root"]})))).
Proof.
  eexists _, _. split; [vm_compute; reflexivity |].
  eapply (id_set_changes_only_when_root_is_resolved root_drive 2 (ForFile "R") "update").
  vm_compute. reflexivity.
Defined.

(** X10. An assertion never asks the store about the empty string or about an
    ID of the allowlist: every request it sends is for a non-empty ID outside
    the ID set the call leaves, the one exception being the request for
    "root" that resolves the root, sent only while "root" is allowlisted and
    the root flag is not set. *)
Theorem allowlisted_ids_are_never_looked_up drive fuel call desc st st' r new :
  run_assertion drive fuel call desc st = Some (st', r) →
  issued st st' new →
  ∀ k, k ∈ new →
    (k = "root" ∧ "root" ∈ ids st ∧ rootResolved st = false)
    ∨ (k ≠ "" ∧ k ∉ ids st').
Proof.
  rewrite run_assertion_internal. unfold assertWriteAccessInternal, issued.
  assert (Hnone : requests st = requests st ++ new → ∀ k, k ∈ new → False).
  { intros Heq k Hk. rewrite <- (app_nil_r (requests st)) in Heq at 1.
    apply app_inv_head in Heq. subst new. by apply elem_of_nil in Hk. }
  destruct (negb (enabled st)); [intros [= <- <-] Hq k Hk; by destruct (Hnone Hq k) |].
  destruct (truthy (default "" (error st)));
    [intros [= <- <-] Hq k Hk; by destruct (Hnone Hq k) |].
  destruct (bool_decide (size (ids st) = 0));
    [intros [= <- <-] Hq k Hk; by destruct (Hnone Hq k) |].
  destruct (ensureRootResolved drive st) as [sa r0] eqn:Hroot.
  apply ensureRootResolved_general in Hroot
    as [(Hdone & -> & ->)
       |(Hfirst & Hin & (new0 & Hq0 & Hroot0) & Hend)].
  - intros (Ha & _ & new1 & Hq1 & Hall)%check_targets_requests Hq k Hk.
    unfold issued in Hq1. rewrite Hq1 in Hq. apply app_inv_head in Hq. subst new1.
    right. destruct (Hall k Hk) as [? Hout]. split; [done |].
    unfold ids in *. by rewrite Ha.
  - unfold issued in Hq0.
    destruct Hend as [(-> & _ & _)|((e & ->) & _ & _)].
    + intros (Ha & _ & new1 & Hq1 & Hall)%check_targets_requests Hq k Hk.
      unfold issued in Hq1. rewrite Hq1, Hq0, <- app_assoc in Hq.
      apply app_inv_head in Hq. subst new.
      apply elem_of_app in Hk as [->%Hroot0|Hk]; [by left |].
      right. destruct (Hall k Hk) as [? Hout]. split; [done |].
      unfold ids in *. by rewrite Ha.
    + intros [= <- <-] Hq k Hk. rewrite Hq0 in Hq. apply app_inv_head in Hq. subst new.
      left. by rewrite (Hroot0 k Hk).
Qed.

Lemma no_lookup_of_allowlisted_example :
  ∃ st' r,
    run_assertion example_drive 3 (ForFile "A") "update" (initial (allowing {["F1"]}))
    = Some (st', r)
    ∧ requests st' = ["A"]
    ∧ (("A" = "root" ∧ "root" ∈ ids (initial (allowing {["F1"]}))
        ∧ rootResolved (initial (allowing {["F1"]})) = false)
       ∨ ("A" ≠ "" ∧ "A" ∉ ids st')).
Proof.
  eexists _, _. split; [vm_compute; reflexivity |]. split; [reflexivity |].
  eapply (allowlisted_ids_are_never_looked_up example_drive 3 (ForFile "A") "update"
            (initial (allowing {["F1"]}))) with (new := ["A"]).
  - vm_compute. reflexivity.
  - reflexivity.
  - apply list_elem_of_singleton. reflexivity.
Defined.

Lemma check_targets_stops drive fuel desc label :
  ∀ targetIds more st st' e,
    check_targets drive fuel desc label targetIds st = Some (st', Throw e) →
    check_targets drive fuel desc label (targetIds ++ more) st = Some (st', Throw e).
Proof.
  induction targetIds as [|targetId rest IH]; intros more st st' e Hrun; [done |].
  cbn [check_targets app] in *.
  destruct (isIdWithinAllowlist drive fuel targetId st) as [[st1 [[]|e1]]|];
    [by apply IH | done | done | done].
Qed.

(** X11. The targets of an assertion are checked in order and the first one
    that fails ends the call: whatever targets follow it, the outcome and
    the state left behind, histories included, are the same, so nothing after
    the failing target is visited or looked up. *)
Theorem targets_after_the_first_failure_are_not_examined
    drive fuel targetIds more desc label st st' e :
  assertWriteAccessInternal drive fuel targetIds desc label st = Some (st', Throw e) →
  assertWriteAccessInternal drive fuel (targetIds ++ more) desc label st
  = Some (st', Throw e).
Proof.
  unfold assertWriteAccessInternal.
  destruct (negb (enabled st)); [done |].
  destruct (truthy (default "" (error st))); [done |].
  destruct (bool_decide (size (ids st) = 0)); [done |].
  destruct (ensureRootResolved drive st) as [sa [[]|e0]]; [|done].
  apply check_targets_stops.
Qed.

Lemma first_failure_example :
  assertWriteAccessForParents example_drive 3 (Some (["Z"] ++ ["A"; "F1"])) "move"
    (initial (allowing {["F1"]}))
  = Some (record_request "Z" (record_visit "Z" (initial (allowing {["F1"]}))),
          Throw (FileNotFound "Z")).
Proof.
  apply (targets_after_the_first_failure_are_not_examined example_drive 3 ["Z"]
           ["A"; "F1"] "move" parents).
  vm_compute. reflexivity.
Defined.

(** X12. A non-empty target that is itself in the ID set is accepted without
    any lookup, whether or not the store knows it, once the root needs no
    resolving: the assertion on it as a file or as a parent returns normally
    and only records the visit. *)
Theorem allowlisted_target_is_accepted_without_lookup drive fuel target desc st :
  enabled st = true →
  error st = None →
  target ≠ "" →
  target ∈ ids st →
  rootResolved st = true ∨ "root" ∉ ids st →
  0 < fuel →
  assertWriteAccessForFile drive fuel target desc st
  = Some (record_visit target st, Return ())
  ∧ assertWriteAccessForParent drive fuel (Some target) desc st
    = Some (record_visit target st, Return ()).
Proof.
  intros Hon He Hne Hin Hdone Hfuel. destruct fuel as [|fuel]; [lia |].
  unfold assertWriteAccessForFile, assertWriteAccessForParent. cbn [default].
  rewrite !(gates_open _ _ _ _ _ _ target), ensureRootResolved_done by done.
  by rewrite !check_allowlisted_target.
Qed.

Lemma allowlisted_target_example :
  assertWriteAccessForFile example_drive 1 "gone" "update" (initial (allowing {["gone"]}))
  = Some (record_visit "gone" (initial (allowing {["gone"]})), Return ())
  ∧ assertWriteAccessForParent example_drive 1 (Some "gone") "update"
      (initial (allowing {["gone"]}))
    = Some (record_visit "gone" (initial (allowing {["gone"]})), Return ()).
Proof.
  apply allowlisted_target_is_accepted_without_lookup.
  - reflexivity.
  - reflexivity.
  - discriminate.
  - vm_compute. reflexivity.
  - right. intros H. vm_compute in H. discriminate H.
  - lia.
Defined.

Lemma loop_empty_target drive fuel st :
  isIdWithinAllowlist drive (S (S fuel)) "" st = Some (st, Return false).
Proof. done. Qed.

(** X13. The empty string is never accepted as a target while the allowlist
    is enabled: an assertion whose only target is the empty string ends with
    a rejection, and when the two configuration gates are open and the root
    needs no resolving, the rejection is the allowlist violation for the
    empty target, thrown without a visit, a lookup or any change of state. *)
Theorem empty_target_is_always_rejected drive fuel call label desc st :
  targets_of call = ([""], label) →
  enabled st = true →
  1 < fuel →
  (∃ st' e, run_assertion drive fuel call desc st = Some (st', Throw e))
  ∧ (error st = None → ids st ≠ ∅ → rootResolved st = true ∨ "root" ∉ ids st →
     run_assertion drive fuel call desc st
     = Some (st, Throw (WriteBlocked desc label ""))).
Proof.
  intros Htargets Hon Hfuel. destruct fuel as [|[|fuel]]; [lia | lia |].
  rewrite run_assertion_internal, Htargets. cbn [fst snd]. split.
  - unfold assertWriteAccessInternal. rewrite Hon. cbn [negb].
    destruct (truthy (default "" (error st))); [by eexists _, _ |].
    destruct (bool_decide (size (ids st) = 0)); [by eexists _, _ |].
    destruct (ensureRootResolved drive st) as [sa [[]|e]]; [|by eexists _, _].
    cbn [check_targets]. rewrite loop_empty_target. by eexists _, _.
  - intros He [x Hx]%set_choose_L Hdone.
    rewrite (gates_open _ _ _ _ _ _ x), ensureRootResolved_done by done.
    cbn [check_targets]. by rewrite loop_empty_target.
Qed.

Lemma empty_target_example :
  (∃ st' e,
     run_assertion example_drive 2 (ForParent (Some "")) "create"
       (initial (allowing {["F1"]}))
     = Some (st', Throw e))
  ∧ (error (initial (allowing {["F1"]})) = None →
     ids (initial (allowing {["F1"]})) ≠ ∅ →
     rootResolved (initial (allowing {["F1"]})) = true
     ∨ "root" ∉ ids (initial (allowing {["F1"]})) →
     run_assertion example_drive 2 (ForParent (Some "")) "create"
       (initial (allowing {["F1"]}))
     = Some (initial (allowing {["F1"]}), Throw (WriteBlocked "create" parent ""))).
Proof.
  apply empty_target_is_always_rejected.
  - reflexivity.
  - reflexivity.
  - lia.
Defined.

Lemma loop_requests_ancestors drive fuel :
  alias_consistent drive →
  ∀ queue seen st st' r,
    coherent drive st →
    isIdWithinAllowlist_loop drive fuel queue seen st = Some (st', r) →
    ∃ new, issued st st' new
           ∧ ∀ k, k ∈ new → ∃ x, x ∈ queue ∧ rtc (parent_of drive) x k.
Proof.
  intros Halias. unfold issued.
  induction fuel as [|fuel IH]; intros queue seen st st' r Hcoh Hrun; [done |].
  destruct queue as [|currentId queue].
  { rewrite loop_nil in Hrun. simplify_eq.
    exists []. rewrite app_nil_r. split; [done | by intros k ?%elem_of_nil]. }
  rewrite loop_cons in Hrun.
  destruct (negb (truthy currentId) || bool_decide (currentId ∈ seen)) eqn:Hskip.
  { apply IH in Hrun as (new & Hq & Hall); [|done]. exists new. split; [done |].
    intros k Hk. destruct (Hall k Hk) as (x & Hx & Hreach).
    exists x. split; [by right | done]. }
  apply orb_false_iff in Hskip as [Hne%negb_false_iff%truthy_nonempty _].
  destruct (bool_decide (currentId ∈ ids (record_visit currentId st))).
  { simplify_eq. exists []. simpl. rewrite app_nil_r.
    split; [done | by intros k ?%elem_of_nil]. }
  destruct (getFileNode drive currentId (record_visit currentId st)) as [st1 r1] eqn:Hg.
  assert (Hcohv : coherent drive (record_visit currentId st)) by done.
  pose proof (getFileNode_coherent _ _ _ _ _ Halias Hcohv Hg) as (Hr1 & Hcoh1 & _).
  assert (Hreq : ∃ new1, requests st1 = requests st ++ new1
                         ∧ ∀ k, k ∈ new1 → k = currentId).
  { pose proof (getFileNode_cases drive currentId (record_visit currentId st)) as Hc.
    rewrite Hg in Hc. simpl in Hc.
    inversion Hc as [| ? ? _ _ _ _ _ Hq _ |]; subst.
    - exists []. simpl. rewrite app_nil_r. split; [done | by intros k ?%elem_of_nil].
    - exists [currentId]. split; [done | by intros k ?%list_elem_of_singleton].
    - exists [currentId]. split; [done | by intros k ?%list_elem_of_singleton]. }
  destruct Hreq as (new1 & Hq1 & Hone).
  assert (Hself : ∀ k, k ∈ new1 →
            ∃ x, x ∈ currentId :: queue ∧ rtc (parent_of drive) x k).
  { intros k ->%Hone. exists currentId. split; [by left | done]. }
  destruct (fetch drive currentId) as [node|e] eqn:Hf; subst r1;
    [|simplify_eq; by exists new1].
  destruct (bool_decide (FileNode.id node ∈ ids st1)); [simplify_eq; by exists new1 |].
  apply IH in Hrun as (new2 & Hq2 & Hall); [|done].
  exists (new1 ++ new2). split; [by rewrite Hq2, Hq1, app_assoc |].
  intros k [Hk|Hk]%elem_of_app; [by apply Hself |].
  destruct (Hall k Hk) as (x & [Hx|Hx]%elem_of_app & Hreach).
  - exists x. split; [by right | done].
  - apply list_elem_of_filter in Hx as [_ Hx].
    exists currentId. split; [by left |].
    eapply rtc_l; [|done]. split; [done |]. eauto.
Qed.

Lemma check_targets_requests_ancestors drive fuel desc label :
  alias_consistent drive →
  ∀ targetIds st st' r,
    coherent drive st →
    check_targets drive fuel desc label targetIds st = Some (st', r) →
    ∃ new, issued st st' new
           ∧ ∀ k, k ∈ new → ∃ x, x ∈ targetIds ∧ rtc (parent_of drive) x k.
Proof.
  intros Halias. unfold issued.
  induction targetIds as [|targetId rest IH]; intros st st' r Hcoh Hrun.
  { simplify_eq/=. exists []. rewrite app_nil_r.
    split; [done | by intros k ?%elem_of_nil]. }
  cbn [check_targets] in Hrun. unfold isIdWithinAllowlist in Hrun.
  destruct (isIdWithinAllowlist_loop drive fuel [targetId] ∅ st) as [[st1 r1]|] eqn:Hloop;
    [|done].
  pose proof (loop_search drive fuel Halias [targetId] ∅ st Hcoh) as Hs.
  rewrite Hloop in Hs. destruct Hs as (_ & Hcoh1 & _).
  apply loop_requests_ancestors in Hloop as (new1 & Hq1 & Hall1); [|done..].
  assert (Hfirst : ∀ k, k ∈ new1 →
            ∃ x, x ∈ targetId :: rest ∧ rtc (parent_of drive) x k).
  { intros k Hk. destruct (Hall1 k Hk) as (x & ->%list_elem_of_singleton & ?).
    exists targetId. split; [by left | done]. }
  destruct r1 as [[]|e]; [|simplify_eq; by exists new1..].
  apply IH in Hrun as (new2 & Hq2 & Hall2); [|done].
  exists (new1 ++ new2). split; [by rewrite Hq2, Hq1, app_assoc |].
  intros k [Hk|Hk]%elem_of_app; [by apply Hfirst |].
  destruct (Hall2 k Hk) as (x & Hx & ?). exists x. split; [by right | done].
Qed.

(** X14. In a running process on a store that answers an ID and the ID it
    reports for it alike, an assertion looks up nothing outside the ancestry
    of its targets: every request it sends is for a target or for an ID
    reached from a target through parents, or is the request for "root" of
    the root normalisation. *)
Theorem lookups_stay_within_the_ancestry drive fuel call desc st st' r new :
  alias_consistent drive →
  coherent drive st →
  run_assertion drive fuel call desc st = Some (st', r) →
  issued st st' new →
  ∀ k, k ∈ new →
    k = "root" ∨ ∃ t, t ∈ (targets_of call).1 ∧ rtc (parent_of drive) t k.
Proof.
  intros Halias Hcoh. rewrite run_assertion_internal.
  unfold assertWriteAccessInternal, issued.
  assert (Hnone : requests st = requests st ++ new → ∀ k, k ∈ new → False).
  { intros Heq k Hk. rewrite <- (app_nil_r (requests st)) in Heq at 1.
    apply app_inv_head in Heq. subst new. by apply elem_of_nil in Hk. }
  destruct (negb (enabled st)); [intros [= <- <-] Hq k Hk; by destruct (Hnone Hq k) |].
  destruct (truthy (default "" (error st)));
    [intros [= <- <-] Hq k Hk; by destruct (Hnone Hq k) |].
  destruct (bool_decide (size (ids st) = 0));
    [intros [= <- <-] Hq k Hk; by destruct (Hnone Hq k) |].
  destruct (ensureRootResolved drive st) as [sa r0] eqn:Hroot.
  pose proof (ensureRootResolved_coherent _ _ _ _ Halias Hcoh Hroot) as Hcoha.
  apply ensureRootResolved_general in Hroot
    as [(_ & -> & ->)|(_ & _ & (new0 & Hq0 & Hroot0) & Hend)].
  - intros (new1 & Hq1 & Hall)%check_targets_requests_ancestors Hq k Hk; [|done..].
    unfold issued in Hq1. rewrite Hq1 in Hq. apply app_inv_head in Hq. subst new1.
    right. by apply Hall.
  - unfold issued in Hq0. destruct Hend as [(-> & _)|((e & ->) & _)].
    + intros (new1 & Hq1 & Hall)%check_targets_requests_ancestors Hq k Hk; [|done..].
      unfold issued in Hq1. rewrite Hq1, Hq0, <- app_assoc in Hq.
      apply app_inv_head in Hq. subst new.
      apply elem_of_app in Hk as [->%Hroot0|Hk]; [by left | right; by apply Hall].
    + intros [= <- <-] Hq k Hk. rewrite Hq0 in Hq. apply app_inv_head in Hq. subst new.
      left. by apply Hroot0.
Qed.

Lemma lookups_within_ancestry_example :
  ∃ st' r,
    run_assertion example_drive 3 (ForFile "A") "update" (initial (allowing {["Q"]}))
    = Some (st', r)
    ∧ requests st' = ["A"; "F1"]
    ∧ ("F1" = "root"
       ∨ ∃ t, t ∈ (targets_of (ForFile "A")).1 ∧ rtc (parent_of example_drive) t "F1").
Proof.
  eexists _, _. split; [vm_compute; reflexivity |]. split; [reflexivity |].
  eapply (lookups_stay_within_the_ancestry example_drive 3 (ForFile "A") "update"
            (initial (allowing {["Q"]}))) with (new := ["A"; "F1"]).
  - exact example_drive_alias_consistent.
  - apply initial_state_inv.
  - vm_compute. reflexivity.
  - reflexivity.
  - apply elem_of_cons. right. apply list_elem_of_singleton. reflexivity.
Defined.

Lemma lookup_error_kind fileId err :
  lookup_error fileId err = FileNotFound fileId
  ∨ lookup_error fileId err = PermissionDenied fileId
  ∨ ∃ message, lookup_error fileId err = VerificationFailed fileId message.
Proof.
  unfold lookup_error. destruct (Drive.code err) as [n|]; [|by eauto].
  destruct n as [|p|p]; try by eauto.
  do 9 (destruct p as [p|p|]; try by eauto).
Qed.

Lemma check_targets_decides drive fuel desc label :
  alias_consistent drive →
  ∀ targetIds st st' r,
    coherent drive st →
    check_targets drive fuel desc label targetIds st = Some (st', r) →
    ids st' = ids st
    ∧ match r with
      | Return _ => ∀ t, t ∈ targetIds → within drive (ids st) t
      | Throw e =>
          ∃ passed t rest,
            targetIds = passed ++ t :: rest
            ∧ (∀ x, x ∈ passed → within drive (ids st) x)
            ∧ ((e = WriteBlocked desc label t ∧ ¬ within drive (ids st) t)
               ∨ ∃ k err, Drive.files_get drive k = inr err ∧ e = lookup_error k err)
      end.
Proof.
  intros Halias.
  induction targetIds as [|targetId rest IH]; intros st st' r Hcoh Hrun.
  { simplify_eq/=. split; [done |]. by intros t ?%elem_of_nil. }
  cbn [check_targets] in Hrun. unfold isIdWithinAllowlist in Hrun.
  pose proof (loop_search drive fuel Halias [targetId] ∅ st Hcoh) as Hloop.
  destruct (isIdWithinAllowlist_loop drive fuel [targetId] ∅ st) as [[st1 r1]|]; [|done].
  destruct Hloop as (Hsearch%search_decides & Hcoh1 & Ha & _).
  assert (Hids : ids st1 = ids st) by (unfold ids; by rewrite Ha).
  destruct r1 as [[]|e]; simplify_eq.
  - apply IH in Hrun as [Hids' Hrest]; [|done]. rewrite Hids in *.
    split; [done |]. destruct r as [[]|e].
    + intros t [->|Ht]%elem_of_cons; [done | by apply Hrest].
    + destruct Hrest as (passed & t & rest' & -> & Hpassed & Hend).
      exists (targetId :: passed), t, rest'. split_and!; [done | | done].
      intros x [->|Hx]%elem_of_cons; [done | by apply Hpassed].
  - split; [done |]. exists [], targetId, rest. split_and!; [done | | by left].
    by intros x ?%elem_of_nil.
  - split; [done |]. exists [], targetId, rest. split_and!; [done | | by right].
    by intros x ?%elem_of_nil.
Qed.

(** X15. In a running process with the allowlist enabled, on a store that
    answers an ID and the ID it reports for it alike, the targets of an
    assertion must all pass, in order: when the assertion returns normally
    every target is within the allowlist, and when it throws the allowlist
    violation, the violation carries the action, the role and a target that
    is not within the allowlist, every target listed before it being within
    it. The allowlist is the ID set the call leaves. *)
Theorem every_target_must_be_within_the_allowlist drive fuel call desc st st' r :
  alias_consistent drive →
  coherent drive st →
  enabled st = true →
  run_assertion drive fuel call desc st = Some (st', r) →
  (r = Return () → ∀ t, t ∈ (targets_of call).1 → within drive (ids st') t)
  ∧ (∀ action role target,
       r = Throw (WriteBlocked action role target) →
       action = desc ∧ role = (targets_of call).2
       ∧ ¬ within drive (ids st') target
       ∧ ∃ passed rest,
           (targets_of call).1 = passed ++ target :: rest
           ∧ ∀ x, x ∈ passed → within drive (ids st') x).
Proof.
  intros Halias Hcoh Hon. rewrite run_assertion_internal.
  unfold assertWriteAccessInternal. rewrite Hon. cbn [negb].
  destruct (truthy (default "" (error st))); [by intros [= <- <-] |].
  destruct (bool_decide (size (ids st) = 0)); [by intros [= <- <-] |].
  destruct (ensureRootResolved drive st) as [sa r0] eqn:Hroot.
  pose proof (ensureRootResolved_coherent _ _ _ _ Halias Hcoh Hroot) as Hcoha.
  destruct r0 as [[]|e0].
  - intros [Hids Hdec]%check_targets_decides; [|done..]. rewrite Hids. split.
    + by intros ->.
    + intros action role target ->.
      destruct Hdec as (passed & t & rest & Htargets & Hpassed & [[Heq Hout]|Hfail]).
      * simplify_eq. split_and!; [done.. |]. by exists passed, rest.
      * destruct Hfail as (k & err & _ & Heq).
        by destruct (lookup_error_kind k err) as [He|[He|[m He]]]; rewrite He in Heq.
  - intros [= <- <-]. split; [done |]. intros action role target [= ->].
    by apply ensureRootResolved_throws in Hroot as Hkind;
      destruct (ensureRootResolved_cases _ _ _ _ Hcoh Hroot)
        as [(_ & _ & ?)|[(_ & _ & n & _ & ? & _)|(_ & _ & err & _ & He & _)]];
      [done | done |];
      destruct (lookup_error_kind "root" err) as [Hk|[Hk|[m Hk]]]; rewrite Hk in He.
Qed.

Lemma every_target_example :
  ∃ st',
    run_assertion example_drive 3 (ForParents (Some ["A"; "F1"])) "move"
      (initial (allowing {["A"]}))
    = Some (st', Throw (WriteBlocked "move" parents "F1"))
    ∧ ¬ within example_drive (ids st') "F1"
    ∧ ∃ passed rest,
        ["A"; "F1"] = passed ++ "F1" :: rest
        ∧ ∀ x, x ∈ passed → within example_drive (ids st') x.
Proof.
  eexists. split; [vm_compute; reflexivity |].
  edestruct (every_target_must_be_within_the_allowlist example_drive 3
               (ForParents (Some ["A"; "F1"])) "move" (initial (allowing {["A"]})))
    as [_ Hblocked].
  - exact example_drive_alias_consistent.
  - apply initial_state_inv.
  - reflexivity.
  - vm_compute. reflexivity.
  - destruct (Hblocked "move" parents "F1" eq_refl) as (_ & _ & Hout & Hpassed).
    split; [exact Hout | exact Hpassed].
Defined.

Lemma run_assertion_ids drive fuel call desc st st' r :
  alias_consistent drive →
  coherent drive st →
  run_assertion drive fuel call desc st = Some (st', r) →
  ∀ x, x ∈ ids st' →
    x ∈ ids st ∨ (x ≠ "" ∧ "root" ∈ ids st ∧ ∃ n, fetch drive "root" = inl n ∧ x = FileNode.id n).
Proof.
  intros Halias Hcoh. rewrite run_assertion_internal. unfold assertWriteAccessInternal.
  destruct (negb (enabled st)); [intros [= <- <-]; by left |].
  destruct (truthy (default "" (error st))); [intros [= <- <-]; by left |].
  destruct (bool_decide (size (ids st) = 0)); [intros [= <- <-]; by left |].
  destruct (ensureRootResolved drive st) as [sa r0] eqn:Hroot.
  pose proof (ensureRootResolved_coherent _ _ _ _ Halias Hcoh Hroot) as Hcoha.
  assert (Hsa : ∀ x, x ∈ ids sa →
            x ∈ ids st
            ∨ (x ≠ "" ∧ "root" ∈ ids st
               ∧ ∃ n, fetch drive "root" = inl n ∧ x = FileNode.id n)).
  { destruct (ensureRootResolved_cases _ _ _ _ Hcoh Hroot)
      as [(_ & -> & _)
         |[(_ & Hin & n & Hn & _ & _ & _ & Hids)|(_ & _ & _ & _ & _ & -> & _)]];
      [by left | | by left].
    intros x. rewrite Hids. intros [->%elem_of_singleton|Hx]%elem_of_union; [|by left].
    right. split_and!; [by eapply (fetch_id_nonempty drive "root") | done | by eauto]. }
  destruct r0 as [[]|e0]; [|by intros [= <- <-]].
  intros (_ & Ha & _)%check_targets_coherent; [|done..].
  unfold ids in *. by rewrite Ha.
Qed.

(** X16. Throughout the life of a process on a store that answers an ID and
    the ID it reports for it alike, from the loaded state through any number
    of assertions with any outcomes: the cache holds, under each key, the node
    the store answers for that key; the flags, sources and error of the
    configuration are the loaded ones; the ID set holds the loaded IDs and at
    most, besides them, the non-empty ID the store reports for "root", and
    that only if "root" was allowlisted; so an ID set loaded without the empty
    string never holds it. *)
Theorem running_process_keeps_its_invariants drive config st :
  alias_consistent drive →
  reachable drive config st →
  coherent drive st
  ∧ root_normalized drive st
  ∧ AllowlistState.enabled (allowlistState st) = AllowlistState.enabled config
  ∧ AllowlistState.sources (allowlistState st) = AllowlistState.sources config
  ∧ AllowlistState.error (allowlistState st) = AllowlistState.error config
  ∧ AllowlistState.ids config ⊆ ids st
  ∧ (∀ x, x ∈ ids st →
       x ∈ AllowlistState.ids config
       ∨ (x ≠ "" ∧ "root" ∈ AllowlistState.ids config
          ∧ ∃ n, fetch drive "root" = inl n ∧ x = FileNode.id n))
  ∧ ("" ∉ AllowlistState.ids config → "" ∉ ids st).
Proof.
  intros Halias Hreach.
  induction Hreach as [|st fuel call desc st' r _ IH Hrun].
  { destruct (initial_state_inv drive config) as [Hcoh Hnorm].
    split_and!; [done.. | by left | done]. }
  destruct IH as (Hcoh & Hnorm & Hen & Hsrc & Herr & Hsub & Hids & _).
  destruct (run_assertion_state_inv _ _ _ _ _ _ _ Halias (conj Hcoh Hnorm) Hrun)
    as [Hcoh' Hnorm'].
  pose proof (run_assertion_run_ok _ _ _ _ _ _ _ Hrun) as (Hen' & Hsrc' & Herr' & Hsub' & _).
  pose proof (run_assertion_ids _ _ _ _ _ _ _ Halias Hcoh Hrun) as Hids'.
  assert (Hall : ∀ x, x ∈ ids st' →
            x ∈ AllowlistState.ids config
            ∨ (x ≠ "" ∧ "root" ∈ AllowlistState.ids config
               ∧ ∃ n, fetch drive "root" = inl n ∧ x = FileNode.id n)).
  { intros x [Hx|(Hne & Hroot & n & Hn & ->)]%Hids'; [by apply Hids |].
    destruct (Hids _ Hroot) as [Hconf|(_ & Hconf & _)]; right; by eauto 6. }
  split_and!; [done | done | congruence | congruence | congruence | set_solver | done |].
  intros Hno Hin. by destruct (Hall _ Hin) as [?|(? & _)].
Qed.

Lemma running_process_example :
  ∃ st1 st2 r1 r2,
    run_assertion root_drive 2 (ForParent None) "create" (initial (allowing {["root"]}))
    = Some (st1, r1)
    ∧ run_assertion root_drive 2 (ForFile "Z") "update" st1 = Some (st2, r2)
    ∧ coherent root_drive st2
    ∧ ("" ∉ AllowlistState.ids (allowing {["root"]}) → "" ∉ ids st2).
Proof.
  eexists _, _, _, _. split; [vm_compute; reflexivity |].
  split; [vm_compute; reflexivity |].
  edestruct (running_process_keeps_its_invariants root_drive (allowing {["root"]}))
    as (Hcoh & _ & _ & _ & _ & _ & _ & Hempty).
  - apply alias_consistentb_spec. vm_compute. reflexivity.
  - eapply (reachable_step _ _ _ 2 (ForFile "Z") "update").
    + eapply (reachable_step _ _ _ 2 (ForParent None) "create").
      * apply reachable_initial.
      * vm_compute. reflexivity.
    + vm_compute. reflexivity.
  - split; [exact Hcoh | exact Hempty].
Defined.

(** X17. An assertion never sends the store a request for an ID that was in
    the cache when the call began, and never sends two requests for the same
    ID; and it never drops a key from the cache. *)
Theorem cached_ids_are_not_requested_again drive fuel call desc st st' r new :
  run_assertion drive fuel call desc st = Some (st', r) →
  issued st st' new →
  NoDup new
  ∧ (∀ k, k ∈ new → parentCache st !! k = None)
  ∧ dom (parentCache st) ⊆ dom (parentCache st').
Proof.
  intros (_ & _ & _ & _ & Hdom & new' & Hq' & Hnd & Hmiss & _)%run_assertion_run_ok Hq.
  unfold issued in *. rewrite Hq in Hq'. apply app_inv_head in Hq'. subst new'.
  split_and!; [done | | done]. intros k Hk. by apply not_elem_of_dom, Hmiss.
Qed.

Lemma cached_ids_example :
  ∃ st' r,
    run_assertion example_drive 3 (ForParents (Some ["A"; "A"])) "move"
      (initial (allowing {["F1"]}))
    = Some (st', r)
    ∧ requests st' = ["A"]
    ∧ NoDup ["A"].
Proof.
  eexists _, _. split; [vm_compute; reflexivity |]. split; [reflexivity |].
  eapply (cached_ids_are_not_requested_again example_drive 3
            (ForParents (Some ["A"; "A"])) "move" (initial (allowing {["F1"]}))).
  - vm_compute. reflexivity.
  - reflexivity.
Defined.

(** ** Configurations that name no ID *)

Lemma blank_trimStart s : blank s = true → blank (trimStart s) = true.
Proof.
  induction s as [|c s IH]; [done |]. cbn [blank trimStart].
  intros [Hc Hs]%andb_true_iff. destruct (is_white c) eqn:Hw; [by apply IH |].
  cbn [blank]. rewrite Hw. by apply andb_true_iff.
Qed.

Lemma blank_trimEnd s : blank s = true → blank (trimEnd s) = true.
Proof.
  induction s as [|c s IH]; [done |]. cbn [blank trimEnd].
  intros [Hc Hs]%andb_true_iff. specialize (IH Hs).
  destruct (trimEnd s) as [|c' r].
  - destruct (is_white c) eqn:Hw; [done |]. cbn [blank]. rewrite Hw.
    by apply andb_true_iff.
  - change (blank (String c (String c' r)))
      with ((is_white c || is_separator c) && blank (String c' r)).
    by apply andb_true_iff.
Qed.

Lemma blank_split_from s : ∀ piece,
  all_white piece = true → blank s = true →
  Forall (λ p, all_white p = true) (split_from piece s).
Proof.
  induction s as [|c s IH]; intros piece Hp Hs; cbn [split_from].
  { by apply Forall_singleton. }
  cbn [blank] in Hs. apply andb_true_iff in Hs as [Hc Hs].
  destruct (is_separator c) eqn:Hsep.
  - apply Forall_cons. split; [done | by apply IH].
  - apply IH; [|done]. rewrite orb_false_r in Hc. clear -Hp Hc.
    induction piece as [|c' piece IH]; cbn [all_white] in *.
    + by rewrite append_empty_l; cbn [all_white]; rewrite Hc.
    + apply andb_true_iff in Hp as [Hc' Hp]. rewrite append_cons. cbn [all_white].
      by rewrite Hc', IH.
Qed.

Lemma blank_parses_to_nothing JSON_parse rawValue :
  blank rawValue = true → parseAllowlistInput JSON_parse rawValue = inl [].
Proof.
  intros Hblank%blank_trimStart%blank_trimEnd. fold (trim rawValue) in Hblank.
  unfold parseAllowlistInput.
  destruct (trim rawValue) as [|c r] eqn:Htrim; [done |]. cbn [truthy negb].
  cbn [blank] in Hblank. apply andb_true_iff in Hblank as Hb. destruct Hb as [Hc _].
  assert (Hplain : startsWith (String c r) "{" || startsWith (String c r) "[" = false).
  { cbn [startsWith]. apply orb_false_iff.
    split; apply bool_decide_eq_false; intros ->; done. }
  rewrite Hplain. f_equal. unfold splitList, split.
  assert (Hpieces := blank_split_from (String c r) "" eq_refl Hblank).
  induction Hpieces as [|p l Hp _ IH]; [done |].
  rewrite fmap_cons, (all_white_trim p Hp), filter_cons_False by done. apply IH.
Qed.

(** X18. An allowlist that is configured but names no ID, its sources holding
    nothing but white space and commas, blocks every write: the loaded ID set
    is empty with no error recorded, and every assertion in the fresh process
    throws the empty-allowlist error without a lookup. *)
Theorem blank_configuration_blocks_every_write
    JSON_parse readFileSync allowlistValue allowlistPath :
  (∀ src, is_source readFileSync allowlistValue allowlistPath src → blank src = true) →
  (∀ path, allowlistPath = Some path → ∃ contents, readFileSync path = inl contents) →
  allowlistValue ≠ None ∨ allowlistPath ≠ None →
  let st :=
    initial (loadAllowlistState JSON_parse readFileSync allowlistValue allowlistPath) in
  ids st = ∅
  ∧ error st = None
  ∧ ∀ drive fuel call desc,
      run_assertion drive fuel call desc st
      = Some (st, Throw (EmptyAllowlist (formatSources (allowlistState st)))).
Proof.
  intros Hblank Hread Hset st.
  assert (Hgate : enabled st = true → ids st = ∅ → error st = None →
            ∀ drive fuel call desc,
              run_assertion drive fuel call desc st
              = Some (st, Throw (EmptyAllowlist (formatSources (allowlistState st))))).
  { intros Hon Hids Herr drive fuel call desc. rewrite run_assertion_internal.
    unfold assertWriteAccessInternal. rewrite Hon, Hids, Herr.
    cbn [negb default truthy]. by rewrite size_empty. }
  cut (enabled st = true ∧ ids st = ∅ ∧ error st = None).
  { intros (? & ? & ?). split_and!; [done | done | by apply Hgate]. }
  subst st. clear Hgate. unfold enabled, ids, error, loadAllowlistState, is_source in *.
  cbn [allowlistState initial].
  destruct allowlistValue as [value|].
  - rewrite (blank_parses_to_nothing JSON_parse value) by (apply Hblank; by left).
    destruct allowlistPath as [path|]; [|done].
    destruct (Hread path eq_refl) as [contents Hc]. rewrite Hc.
    rewrite (blank_parses_to_nothing JSON_parse contents); [done |].
    apply Hblank. right. eauto.
  - destruct allowlistPath as [path|]; [|by destruct Hset].
    destruct (Hread path eq_refl) as [contents Hc]. rewrite Hc.
    rewrite (blank_parses_to_nothing JSON_parse contents); [done |].
    apply Hblank. right. eauto.
Qed.

Lemma blank_configuration_example :
  run_assertion example_drive 0 (ForFile "F1") "update"
    (initial (loadAllowlistState (λ _, inl JNull) (λ _, inl "") (Some " , ") None))
  = Some (initial (loadAllowlistState (λ _, inl JNull) (λ _, inl "") (Some " , ") None),
          Throw (EmptyAllowlist "env:GOOGLE_DRIVE_WRITE_ALLOWLIST")).
Proof.
  apply (blank_configuration_blocks_every_write (λ _, inl JNull) (λ _, inl "")
           (Some " , ") None).
  - intros src [Hsrc|(path & Hpath & _)]; [|discriminate Hpath].
    injection Hsrc as <-. reflexivity.
  - intros path Hpath. discriminate Hpath.
  - left. discriminate.
Defined.

(** X19. An inline value that starts, once trimmed, with a brace or a bracket
    and that [JSON.parse] rejects blocks every write, whatever the file
    source holds: the loaded state carries the parser's message, before the
    file's error if there is one, and every assertion in the fresh process
    throws the configuration error with that message, without touching the
    state. *)
Theorem malformed_inline_json_blocks_every_write
    JSON_parse readFileSync value allowlistPath cause :
  startsWith (trim value) "{" || startsWith (trim value) "[" = true →
  JSON_parse (trim value) = inr cause →
  describe cause ≠ "" →
  let st :=
    initial (loadAllowlistState JSON_parse readFileSync (Some value) allowlistPath) in
  let message :=
    match AllowlistState.error
            (loadAllowlistState JSON_parse readFileSync None allowlistPath) with
    | Some later => describe cause +:+ " " +:+ later
    | None => describe cause
    end in
  error st = Some message
  ∧ ∀ drive fuel call desc,
      run_assertion drive fuel call desc st
      = Some (st, Throw (ConfigurationError (formatSources (allowlistState st)) message)).
Proof.
  intros Hjson Hparse Hcause st message.
  assert (Hinline : parseAllowlistInput JSON_parse value = inr cause).
  { unfold parseAllowlistInput. rewrite Hjson, Hparse.
    destruct (trim value); [done | done]. }
  assert (Hgate : ∀ msg,
            msg ≠ "" → enabled st = true → error st = Some msg →
            ∀ drive fuel call desc,
              run_assertion drive fuel call desc st
              = Some (st, Throw (ConfigurationError (formatSources (allowlistState st)) msg))).
  { intros msg Hmsg Hon Herr drive fuel call desc. rewrite run_assertion_internal.
    unfold assertWriteAccessInternal. rewrite Hon, Herr. cbn [negb default].
    by destruct msg. }
  assert (Hmore : ∀ later, describe cause +:+ later ≠ "").
  { intros later. by destruct (describe cause). }
  subst st message. revert Hgate.
  unfold error, enabled, loadAllowlistState. cbn [allowlistState initial].
  rewrite Hinline.
  destruct allowlistPath as [path|];
    [destruct (readFileSync path) as [contents|e'];
     [destruct (parseAllowlistInput JSON_parse contents) as [parsed|e''] |] |];
    cbn [AllowlistState.error AllowlistState.enabled app join]; intros Hgate;
    (split; [done |]); by apply Hgate.
Qed.

Lemma malformed_inline_json_example :
  let st :=
    initial (loadAllowlistState example_JSON_parse (λ _, inl hidden_toString_text)
               (Some " [F1") (Some "/etc/allowlist")) in
  error st
  = Some ("Unexpected token "
            +:+ "Failed to read /etc/allowlist: Cannot convert object to primitive value")
  ∧ ∀ drive fuel call desc,
      run_assertion drive fuel call desc st
      = Some (st,
              Throw (ConfigurationError
                       "env:GOOGLE_DRIVE_WRITE_ALLOWLIST, file:/etc/allowlist"
                       ("Unexpected token "
                          +:+ "Failed to read /etc/allowlist: "
                          +:+ "Cannot convert object to primitive value"))).
Proof.
  intros st.
  apply (malformed_inline_json_blocks_every_write example_JSON_parse
           (λ _, inl hidden_toString_text) " [F1" (Some "/etc/allowlist") SyntaxError).
  - reflexivity.
  - reflexivity.
  - discriminate.
Defined.
